(** * SwitchBot lock logs: enrichment pipeline and last-user tracking

    A shallow embedding of the log pipeline of the [switchbot_lock_logs]
    integration:

    - [storage.py]           the per-lock user-name table ([SwitchBotLockUserStore]);
    - [lock_log_manager.py]  fetching, enrichment and the cached batch
                             ([SwitchBotLockLogManager]);
    - [sensor.py]            the "last user" sensor and its high-water mark
                             ([SwitchBotLockLastUserSensor]).

    Python dictionaries that are used as maps are [gmap]s, log dictionaries
    are records with one optional field per key the code reads, Python
    integers are [Z], and code that can raise lives in the [result] monad. *)

From Stdlib Require Import ZArith Ascii String List Bool Lia.
From stdpp Require Import base option list strings pretty gmap fin_maps.

Local Open Scope string_scope.
Local Open Scope Z_scope.

(** ** Exceptions and results *)

(** The exceptions the modelled code raises or catches. [DeviceError] stands
    for whatever the Bluetooth layer raises from [get_logs]. *)
Inductive exn : Type :=
| ValueError
| KeyError
| IndexError
| DeviceError.

Inductive result (A : Type) : Type :=
| Ok (a : A)
| Raise (e : exn).

Arguments Ok {A} a.
Arguments Raise {A} e.

#[global] Instance result_ret : MRet result := @Ok.

#[global] Instance result_bind : MBind result := λ A B f m,
  match m with
  | Ok a => f a
  | Raise e => Raise e
  end.

(** [try: body except handled: handler]. *)
Definition try_except {A} (body : result A) (handled : exn → bool)
    (handler : result A) : result A :=
  match body with
  | Ok a => Ok a
  | Raise e => if handled e then handler else Raise e
  end.

Definition raises {A} (r : result A) : Prop := ∃ e, r = Raise e.

(** ** The Python built-ins the code relies on

    Strings are sequences of code points below 256 ([ascii]); the payloads
    the lock produces are hexadecimal text. *)
Module Py.

(** [s[a:b]] for [0 <= a <= b]: slicing truncates, it never raises. *)
Definition slice (s : string) (a b : nat) : string :=
  String.substring a (b - a) s.

(** [len(s)] *)
Definition len (s : string) : Z := Z.of_nat (String.length s).

(** Truth value of a string: empty is false. *)
Definition truthy (s : string) : bool :=
  match s with
  | EmptyString => false
  | String _ _ => true
  end.

(** [x in (a, b, ...)] on strings. *)
Definition in_tuple (x : string) (t : list string) : bool :=
  existsb (String.eqb x) t.

Definition code (c : ascii) : Z := Z.of_N (N_of_ascii c).

(** The characters [int()] strips around a number: tab, LF, VT, FF, CR,
    space, NEL and the no-break space. *)
Definition is_space (c : ascii) : bool :=
  let n := code c in
  ((9 <=? n) && (n <=? 13)) || (n =? 32) || (n =? 133) || (n =? 160).

(** Value of a base-16 digit. *)
Definition hex_digit_value (c : ascii) : option Z :=
  let n := code c in
  if (48 <=? n) && (n <=? 57) then Some (n - 48)
  else if (97 <=? n) && (n <=? 102) then Some (n - 87)
  else if (65 <=? n) && (n <=? 70) then Some (n - 55)
  else None.

Definition is_underscore (c : ascii) : bool := code c =? 95.

(** The digit loop of [int(s, 16)], entered after a digit: digits, with
    single underscores allowed between two digits. Returns the value and
    the unread rest, [None] on a doubled or trailing underscore. *)
Fixpoint scan_digits (acc : Z) (cs : list ascii) : option (Z * list ascii) :=
  match cs with
  | [] => Some (acc, [])
  | c :: r =>
      match hex_digit_value c with
      | Some d => scan_digits (16 * acc + d) r
      | None =>
          if is_underscore c then
            match r with
            | c' :: r' =>
                match hex_digit_value c' with
                | Some d => scan_digits (16 * acc + d) r'
                | None => None
                end
            | [] => None
            end
          else Some (acc, cs)
      end
  end.

Fixpoint skip_spaces (cs : list ascii) : list ascii :=
  match cs with
  | c :: r => if is_space c then skip_spaces r else cs
  | [] => []
  end.

Definition strip_sign (cs : list ascii) : Z * list ascii :=
  match cs with
  | c :: r =>
      if code c =? 43 then (1, r)
      else if code c =? 45 then (-1, r)
      else (1, cs)
  | [] => (1, [])
  end.

(** An optional [0x]/[0X] prefix, after which one underscore is allowed. *)
Definition strip_prefix16 (cs : list ascii) : list ascii :=
  match cs with
  | z :: x :: r =>
      if (code z =? 48) && ((code x =? 120) || (code x =? 88)) then
        match r with
        | u :: r' => if is_underscore u then r' else r
        | [] => r
        end
      else cs
  | _ => cs
  end.

(** [int(s, 16)]: surrounding whitespace, an optional sign, an optional
    prefix, then at least one digit; [ValueError] on anything else. *)
Definition int16 (s : string) : result Z :=
  let cs := skip_spaces (list_ascii_of_string s) in
  let '(sign, cs) := strip_sign cs in
  let cs := strip_prefix16 cs in
  match cs with
  | c :: r =>
      match hex_digit_value c with
      | Some d =>
          match scan_digits d r with
          | Some (v, rest) =>
              match skip_spaces rest with
              | [] => Ok (sign * v)
              | _ :: _ => Raise ValueError
              end
          | None => Raise ValueError
          end
      | None => Raise ValueError
      end
  | [] => Raise ValueError
  end.

(** [str(n)] for an integer: decimal digits, with a leading minus sign. *)
Definition str (n : Z) : string := pretty n.

Definition is_upper (c : ascii) : bool := (65 <=? code c) && (code c <=? 90).
Definition is_lower (c : ascii) : bool := (97 <=? code c) && (code c <=? 122).

Definition to_lower (c : ascii) : ascii :=
  if is_upper c then ascii_of_N (Z.to_N (code c + 32)) else c.
Definition to_upper (c : ascii) : ascii :=
  if is_lower c then ascii_of_N (Z.to_N (code c - 32)) else c.

(** [s.lower()] *)
Fixpoint lower (s : string) : string :=
  match s with
  | EmptyString => EmptyString
  | String c r => String (to_lower c) (lower r)
  end.

(** [s.replace(a, b)] for single characters [a] and [b]. *)
Fixpoint replace (a b : ascii) (s : string) : string :=
  match s with
  | EmptyString => EmptyString
  | String c r => String (if Ascii.eqb c a then b else c) (replace a b r)
  end.

(** [s.title()]: a letter that follows a letter is lowered, any other
    letter is raised. *)
Fixpoint title_from (prev_cased : bool) (s : string) : string :=
  match s with
  | EmptyString => EmptyString
  | String c r =>
      String (if prev_cased then to_lower c else to_upper c)
             (title_from (is_upper c || is_lower c) r)
  end.

Definition title (s : string) : string := title_from false s.

End Py.

(** ** [lock_log_manager.py]: user id extraction *)

Definition handles_ValueError_IndexError (e : exn) : bool :=
  match e with
  | ValueError | IndexError => true
  | _ => false
  end.

(** [SwitchBotLockLogManager._extract_user_id]. The result is [Ok None] for
    Python's [None]. *)
Definition _extract_user_id (payload : string) : result (option Z) :=
  if negb (Py.truthy payload) || (Py.len payload <? 6) then Ok None
  else
    try_except
      (if String.eqb (Py.slice payload 0 2) "59"
          && Py.in_tuple (Py.slice payload 2 4) ["01"; "03"]
       then
         user_id ← Py.int16 (Py.slice payload 4 6);
         Ok (if user_id >? 0 then Some user_id else None)
       else Ok None)
      handles_ValueError_IndexError
      (Ok None).

(** ** [storage.py]: the user-name table *)

(** One lock's entry, [{"name": ..., "users": {...}}]. A loaded document may
    lack the ["users"] key, which [async_delete_user] tests for; [None] in
    [name] is Python's [None]. *)
Record LockData : Type := {
  name : option string;
  users : option (gmap string string);
}.

(** The literal [{"name": None, "users": {}}]. *)
Definition default_lock_data : LockData :=
  {| name := None; users := Some ∅ |}.

(** [SwitchBotLockUserStore]: [_data] is the in-memory table, [_store] the
    document last written by [Store.async_save] ([None]: nothing stored). *)
Record SwitchBotLockUserStore : Type := {
  _store : option (gmap string LockData);
  _data : gmap string LockData;
}.

(** [SwitchBotLockUserStore.__init__] *)
Definition new_user_store (stored : option (gmap string LockData))
    : SwitchBotLockUserStore :=
  {| _store := stored; _data := ∅ |}.

Definition set_data (d : gmap string LockData) (self : SwitchBotLockUserStore)
    : SwitchBotLockUserStore :=
  {| _store := _store self; _data := d |}.

(** [async_load]: an absent document gives the empty table (and so does an
    empty one, which is false in the [if] and equal to [{}]). *)
Definition async_load (self : SwitchBotLockUserStore) : SwitchBotLockUserStore :=
  match _store self with
  | Some data => set_data data self
  | None => set_data ∅ self
  end.

(** [async_save] *)
Definition async_save (self : SwitchBotLockUserStore) : SwitchBotLockUserStore :=
  {| _store := Some (_data self); _data := _data self |}.

(** [async_get_lock_data] *)
Definition async_get_lock_data (self : SwitchBotLockUserStore) (mac : string)
    : LockData :=
  default default_lock_data (_data self !! mac).

(** [async_get_users] *)
Definition async_get_users (self : SwitchBotLockUserStore) (mac : string)
    : gmap string string :=
  default ∅ (users (async_get_lock_data self mac)).

(** [async_set_user]. The subscript [self._data[mac]["users"]] raises
    [KeyError] on an entry without that key; nothing has been written then. *)
Definition async_set_user (mac : string) (user_id : Z) (new_name : string)
    (self : SwitchBotLockUserStore) : SwitchBotLockUserStore * result unit :=
  let self1 :=
    match _data self !! mac with
    | None => set_data (<[mac := default_lock_data]> (_data self)) self
    | Some _ => self
    end in
  match _data self1 !! mac with
  | None => (self1, Raise KeyError)
  | Some ld =>
      match users ld with
      | None => (self1, Raise KeyError)
      | Some us =>
          let ld' := {| name := name ld;
                        users := Some (<[Py.str user_id := new_name]> us) |} in
          (async_save (set_data (<[mac := ld']> (_data self1)) self1), Ok tt)
      end
  end.

(** [async_delete_user]: [pop(key, None)] ignores a missing key; the table is
    saved only when the lock has a ["users"] entry. *)
Definition async_delete_user (mac : string) (user_id : Z)
    (self : SwitchBotLockUserStore) : SwitchBotLockUserStore * result unit :=
  match _data self !! mac with
  | Some ld =>
      match users ld with
      | Some us =>
          let ld' := {| name := name ld;
                        users := Some (delete (Py.str user_id) us) |} in
          (async_save (set_data (<[mac := ld']> (_data self)) self), Ok tt)
      | None => (self, Ok tt)
      end
  | None => (self, Ok tt)
  end.

(** ** [lock_log_manager.py]: records and enrichment *)

(** A raw log dictionary as [get_logs] delivers it. Every key the code reads
    is read defensively ([log.get(key, default)]) or inside [try], so each is
    optional here: [None] is a missing key. *)
Record RawLog : Type := {
  timestamp : option Z;
  source : option Z;
  action : option Z;
  payload : option string;
}.

(** [{**log, "user_id": ..., "user_name": ..., "source_display": ...,
    "action_name": ...}]: the raw keys and the four derived ones. In
    [user_id] and [user_name], [None] is Python's [None]. *)
Record EnrichedLog : Type := {
  raw : RawLog;
  user_id : option Z;
  user_name : option string;
  source_display : string;
  action_name : string;
}.

(** The enumerations of [switchbot.const], which the integration imports:
    each maps a known code to the name of its member, and has no member
    ([None], a [ValueError] in Python) for any other code. *)
Class SwitchbotConst : Type := {
  LockLogSource : Z → option string;
  LockLogAction : Z → option string;
}.

(** [log[key]] *)
Definition getitem {A} (field : option A) : result A :=
  match field with
  | Some v => Ok v
  | None => Raise KeyError
  end.

(** [Enum(value).name] *)
Definition member_name (enum : Z → option string) (value : Z) : result string :=
  match enum value with
  | Some n => Ok n
  | None => Raise ValueError
  end.

Definition handles_ValueError_KeyError (e : exn) : bool :=
  match e with
  | ValueError | KeyError => true
  | _ => false
  end.

(** [{log.get(key, '?')}] inside an f-string. *)
Definition format_code (field : option Z) : string :=
  match field with
  | Some c => Py.str c
  | None => "?"
  end.

Section Enrichment.
Context `{SwitchbotConst}.

(** The body of the loop of [_enrich_logs]. *)
Definition enrich_log (users : gmap string string) (log : RawLog)
    : result EnrichedLog :=
  user_id ← _extract_user_id (default "" (payload log));
  let user_name :=
    match user_id with
    | Some uid =>
        match users !! Py.str uid with
        | Some n => Some n
        | None => None
        end
    | None => None
    end in
  source_display ←
    try_except
      (src ← getitem (source log);
       source_name ← member_name LockLogSource src;
       Ok (Py.title (Py.replace "_" " " source_name)))
      handles_ValueError_KeyError
      (Ok ("Unknown (Source " +:+ format_code (source log) +:+ ")"));
  action_name ←
    try_except
      (act ← getitem (action log);
       n ← member_name LockLogAction act;
       Ok (Py.lower n))
      handles_ValueError_KeyError
      (Ok ("unknown_" +:+ format_code (action log)));
  Ok {| raw := log;
        user_id := user_id;
        user_name := user_name;
        source_display := source_display;
        action_name := action_name |}.

(** [for log in logs: ... enriched.append(enriched_log)] *)
Fixpoint enrich_loop (users : gmap string string) (logs : list RawLog)
    (enriched : list EnrichedLog) : result (list EnrichedLog) :=
  match logs with
  | [] => Ok enriched
  | log :: rest =>
      enriched_log ← enrich_log users log;
      enrich_loop users rest (enriched ++ [enriched_log])
  end.

(** [SwitchBotLockLogManager._enrich_logs] *)
Definition _enrich_logs (user_store : SwitchBotLockUserStore) (mac : string)
    (logs : list RawLog) : result (list EnrichedLog) :=
  let users := async_get_users user_store mac in
  enrich_loop users logs [].

End Enrichment.

(** ** [lock_log_manager.py]: the manager *)

(** A listener is a callback registered by a sensor; it is identified by the
    sensor that registered it. *)
Definition Listener : Type := nat.

(** [SwitchBotLockLogManager]. The user store is shared between all managers
    and is passed to the operations that read it. *)
Record SwitchBotLockLogManager : Type := {
  _mac : string;
  _latest_logs : list EnrichedLog;
  _listeners : list Listener;
}.

(** [SwitchBotLockLogManager.__init__] *)
Definition new_log_manager (mac : string) : SwitchBotLockLogManager :=
  {| _mac := mac; _latest_logs := []; _listeners := [] |}.

(** [async_add_listener] *)
Definition async_add_listener (listener : Listener)
    (self : SwitchBotLockLogManager) : SwitchBotLockLogManager :=
  {| _mac := _mac self;
     _latest_logs := _latest_logs self;
     _listeners := _listeners self ++ [listener] |}.

(** [_notify_listeners]: the calls made, in order, when every listener
    returns. Listeners that raise are the subject of [Callbacks] below. *)
Definition _notify_listeners (self : SwitchBotLockLogManager) : list Listener :=
  _listeners self.

(** What [get_logs(base_time, max_entries)] does when awaited: it raises, or
    returns the records read ([None] for a reply of Python's [None]). *)
Definition LockDevice : Type := Z → Z → result (option (list RawLog)).

(** [not logs] *)
Definition no_logs (logs : option (list RawLog)) : bool :=
  match logs with
  | None | Some [] => true
  | Some (_ :: _) => false
  end.

(** The outcome of one call: the manager afterwards, the listeners called,
    and what the caller gets. *)
Record FetchOutcome : Type := {
  manager_after : SwitchBotLockLogManager;
  notified : list Listener;
  returned : result (list EnrichedLog);
}.

Section Manager.
Context `{SwitchbotConst}.

(** [SwitchBotLockLogManager.async_fetch_logs] *)
Definition async_fetch_logs (lock_device : LockDevice)
    (user_store : SwitchBotLockUserStore) (base_time max_entries : Z)
    (self : SwitchBotLockLogManager) : FetchOutcome :=
  match lock_device base_time max_entries with
  | Raise e =>
      {| manager_after := self; notified := []; returned := Raise e |}
  | Ok logs =>
      if no_logs logs then
        {| manager_after := self; notified := []; returned := Ok [] |}
      else
        match _enrich_logs user_store (_mac self) (default [] logs) with
        | Raise e =>
            {| manager_after := self; notified := []; returned := Raise e |}
        | Ok enriched_logs =>
            let self' := {| _mac := _mac self;
                            _latest_logs := enriched_logs;
                            _listeners := _listeners self |} in
            {| manager_after := self';
               notified := _notify_listeners self';
               returned := Ok enriched_logs |}
        end
  end.

End Manager.

(** The property [latest_log]. *)
Definition latest_log (self : SwitchBotLockLogManager) : option EnrichedLog :=
  match _latest_logs self with
  | first :: _ => Some first
  | [] => None
  end.

(** The property [latest_logs], as a value: a list with the same entries. *)
Definition latest_logs (self : SwitchBotLockLogManager) : list EnrichedLog :=
  _latest_logs self.

(** ** [sensor.py]: the last-user sensor *)

(** [SwitchBotLockLastUserSensor], the two fields it adds to the base class. *)
Record SwitchBotLockLastUserSensor : Type := {
  _last_processed_timestamp : Z;
  _current_log : option EnrichedLog;
}.

(** [SwitchBotLockLastUserSensor.__init__] *)
Definition new_last_user_sensor : SwitchBotLockLastUserSensor :=
  {| _last_processed_timestamp := 0; _current_log := None |}.

(** [log.get("timestamp", 0)] *)
Definition get_timestamp (log : EnrichedLog) : Z :=
  default 0 (timestamp (raw log)).

(** [log.get("payload", "")] *)
Definition get_payload (log : EnrichedLog) : string :=
  default "" (payload (raw log)).

(** [_is_valid_payload] *)
Definition _is_valid_payload (payload : string) : bool :=
  if negb (Py.truthy payload) || (Py.len payload <? 6) then false
  else negb (String.eqb payload "000000000000").

(** The loop of [_get_newest_valid_log] over the entries still to visit. *)
Fixpoint newest_valid_loop (self : SwitchBotLockLastUserSensor)
    (logs : list EnrichedLog) : option EnrichedLog :=
  match logs with
  | [] => None
  | log :: rest =>
      let timestamp := get_timestamp log in
      if (timestamp >? _last_processed_timestamp self)
         && _is_valid_payload (get_payload log)
      then Some log
      else newest_valid_loop self rest
  end.

(** [_get_newest_valid_log] *)
Definition _get_newest_valid_log (log_manager : SwitchBotLockLogManager)
    (self : SwitchBotLockLastUserSensor) : option EnrichedLog :=
  newest_valid_loop self (latest_logs log_manager).

(** Truth value of an enriched dictionary: it has the four derived keys, so
    it is never empty. *)
Definition log_truthy (log : EnrichedLog) : bool := true.

(** The property [native_value]: the name of the last user. *)
Definition native_value (self : SwitchBotLockLastUserSensor) : option string :=
  match _current_log self with
  | Some log => if log_truthy log then user_name log else None
  | None => None
  end.

(** [_handle_log_update]: the sensor afterwards, and the state that
    [async_write_ha_state] publishes. *)
Definition _handle_log_update (log_manager : SwitchBotLockLogManager)
    (self : SwitchBotLockLastUserSensor)
    : SwitchBotLockLastUserSensor * option string :=
  let new_log := _get_newest_valid_log log_manager self in
  let self' :=
    match new_log with
    | Some log =>
        if log_truthy log then
          {| _last_processed_timestamp := get_timestamp log;
             _current_log := Some log |}
        else self
    | None => self
    end in
  (self', native_value self').

(** A run of update notifications, one per manager state observed. *)
Definition handle_updates (managers : list SwitchBotLockLogManager)
    (self : SwitchBotLockLastUserSensor) : SwitchBotLockLastUserSensor :=
  fold_left (λ s m, fst (_handle_log_update m s)) managers self.

(** ** Object identity: the cached list and its copies

    [latest_logs] returns [self._latest_logs.copy()]. What a copy protects
    against is only visible with object identity, so the cached list is also
    modelled as an object on a heap: a list object holds references to the
    dictionaries of its entries, and [copy()] allocates a new list object
    holding the same references. *)

Definition loc : Type := positive.

Record Heap : Type := {
  lists : gmap loc (list loc);
  dicts : gmap loc EnrichedLog;
}.

(** The manager as an object: [_latest_logs] refers to a list object. *)
Record ManagerObj : Type := {
  latest_logs_ref : loc;
}.

(** [list.copy()]: a new list object with the same items. *)
Definition list_copy (l : loc) (h : Heap) : Heap * loc :=
  let new := fresh (dom (lists h)) in
  ({| lists := <[new := default [] (lists h !! l)]> (lists h);
      dicts := dicts h |},
   new).

(** The property [latest_logs] on objects. *)
Definition latest_logs_obj (self : ManagerObj) (h : Heap) : Heap * loc :=
  list_copy (latest_logs_ref self) h.

(** The entries a list object shows to a reader. *)
Definition read_list (h : Heap) (l : loc) : option (list EnrichedLog) :=
  items ← lists h !! l;
  mapM (λ r, dicts h !! r) items.

(** What a caller may do to a list object it holds: an in-place operation
    of the list ([append], [extend], [insert], [remove], [pop], [clear],
    [sort], [reverse], assignment to or deletion of an item or a slice)
    leaves new items, computed from the old ones, or raises. *)
Definition ListOp : Type := list loc → result (list loc).

(** Some of them; [IndexError] where Python raises it. *)
Definition Append (x : loc) : ListOp := λ items, Ok (items ++ [x])%list.

Definition Insert (i : nat) (x : loc) : ListOp :=
  λ items, Ok (take i items ++ x :: drop i items)%list.

Definition SetItem (i : nat) (x : loc) : ListOp :=
  λ items,
    if decide (i < length items)%nat then Ok (<[i := x]> items)
    else Raise IndexError.

Definition DelItem (i : nat) : ListOp :=
  λ items,
    if decide (i < length items)%nat then Ok (delete i items)
    else Raise IndexError.

Definition Pop : ListOp :=
  λ items,
    match items with
    | [] => Raise IndexError
    | _ :: _ => Ok (removelast items)
    end.

Definition Clear : ListOp := λ _, Ok [].

Definition Reverse : ListOp := λ items, Ok (reverse items).

(** The operation applied in place to the list object at [l]; a raising
    operation leaves the object as it was. *)
Definition mutate (l : loc) (op : ListOp) (h : Heap) : Heap :=
  match lists h !! l with
  | Some items =>
      match op items with
      | Ok items' => {| lists := <[l := items']> (lists h); dicts := dicts h |}
      | Raise _ => h
      end
  | None => h
  end.

(** A write into entry [i] of the list at [l] ([logs[i][key] = value],
    [logs[i].update(...)], [del logs[i][key]]): it goes to the dictionary
    object that item refers to. Out of range the subscript raises and
    nothing is written. *)
Definition write_entry (l : loc) (i : nat) (write : EnrichedLog → EnrichedLog)
    (h : Heap) : Heap :=
  match lists h !! l ≫= (.!! i) with
  | Some r => {| lists := lists h; dicts := alter write r (dicts h) |}
  | None => h
  end.

(** What a caller does with a list it holds: it changes the list, or it
    writes into one of its entries. *)
Inductive CallerAction : Type :=
| OnList (op : ListOp)
| OnEntry (i : nat) (write : EnrichedLog → EnrichedLog).

Definition perform (l : loc) (action : CallerAction) (h : Heap) : Heap :=
  match action with
  | OnList op => mutate l op h
  | OnEntry i write => write_entry l i write h
  end.

Definition perform_all (l : loc) (actions : list CallerAction) (h : Heap)
    : Heap :=
  fold_left (λ h action, perform l action h) actions h.

(** The action leaves the entries alone. *)
Definition on_list_only (action : CallerAction) : Prop :=
  match action with
  | OnList _ => True
  | OnEntry _ _ => False
  end.

(** The object [self] on heap [h] holds the cache of the manager value [m]. *)
Definition represents (h : Heap) (self : ManagerObj)
    (m : SwitchBotLockLogManager) : Prop :=
  read_list h (latest_logs_ref self) = Some (_latest_logs m).

(** ** The specification's vocabulary *)

(** Byte [i] of a hexadecimal payload: characters [2i] and [2i+1] read as two
    hex digits of either case. *)
Definition byte_at (i : nat) (payload : string) : option Z :=
  match list_ascii_of_string (Py.slice payload (2 * i) (2 * i + 2)) with
  | [c1; c2] =>
      d1 ← Py.hex_digit_value c1;
      d2 ← Py.hex_digit_value c2;
      Some (16 * d1 + d2)
  | _ => None
  end.

(** The byte two hex digits spell, and the character of a decimal digit. *)
Definition byte_of (c1 c2 : ascii) : option Z :=
  d1 ← Py.hex_digit_value c1; d2 ← Py.hex_digit_value c2; Some (16 * d1 + d2).

Definition decimal_digit (a : Z) : ascii := ascii_of_N (Z.to_N (48 + a)).

Definition byte_is (i : nat) (payload : string) (v : Z) : bool :=
  match byte_at i payload with
  | Some b => b =? v
  | None => false
  end.

(** Byte 0 is [0x59] and byte 1 is [0x01] or [0x03]. *)
Definition has_user_prefix (payload : string) : bool :=
  byte_is 0 payload 0x59 && (byte_is 1 payload 0x01 || byte_is 1 payload 0x03).

(** The pattern [59 01|03 XX 00 00] as the specification reads it: the user
    prefix, and bytes 3 to 5 all zero. *)
Definition matches_zero_tail_pattern (payload : string) : bool :=
  has_user_prefix payload
  && byte_is 3 payload 0 && byte_is 4 payload 0 && byte_is 5 payload 0.

(** A string of hexadecimal digits. *)
Definition is_hex_string (s : string) : bool :=
  forallb (λ c, bool_decide (is_Some (Py.hex_digit_value c)))
          (list_ascii_of_string s).

(** Payload validity as the specification words it: length at least 6 and
    not the sentinel of twelve zeros. *)
Definition valid_payload_spec (payload : string) : bool :=
  (6 <=? Py.len payload) && negb (String.eqb payload "000000000000").

(** The acceptance test of the tracker as the specification words it. *)
Definition acceptable (last_processed : Z) (log : EnrichedLog) : bool :=
  (last_processed <? get_timestamp log) && valid_payload_spec (get_payload log).

(** The labels of a record: derived from the member name for a known code,
    a fallback that embeds the code for an unknown one, and the same
    fallback around ["?"] when the key is missing. *)
Definition source_label `{SwitchbotConst} (log : RawLog) : string :=
  match source log ≫= LockLogSource with
  | Some member => Py.title (Py.replace "_" " " member)
  | None => "Unknown (Source " +:+ format_code (source log) +:+ ")"
  end.

Definition action_label `{SwitchbotConst} (log : RawLog) : string :=
  match action log ≫= LockLogAction with
  | Some member => Py.lower member
  | None => "unknown_" +:+ format_code (action log)
  end.

(** [e] is a newest entry of a batch: it is in it and none is later. *)
Definition is_newest (e : EnrichedLog) (logs : list EnrichedLog) : Prop :=
  e ∈ logs ∧ ∀ e', e' ∈ logs → get_timestamp e' ≤ get_timestamp e.

(** The batch is ordered newest first. *)
Definition newest_first (logs : list EnrichedLog) : Prop :=
  ∀ (i j : nat) ei ej,
    (i ≤ j)%nat → logs !! i = Some ei → logs !! j = Some ej →
    get_timestamp ej ≤ get_timestamp ei.

(** [needle] occurs in [hay]. *)
Definition contains (needle hay : string) : Prop :=
  ∃ before after, hay = before +:+ needle +:+ after.

(** A small vocabulary on which the enrichment can be evaluated. *)
Definition sample_const : SwitchbotConst :=
  {| LockLogSource c :=
       if c =? 1 then Some "BLE_APP"
       else if c =? 2 then Some "KEYPAD" else None;
     LockLogAction c :=
       if c =? 0 then Some "LOCK"
       else if c =? 1 then Some "UNLOCK" else None |}.

Definition raw_log (t : Z) (p : string) (src act : Z) : RawLog :=
  {| timestamp := Some t; source := Some src; action := Some act;
     payload := Some p |}.

(** What holds of every state the sensor reaches. *)
Definition tracker_inv (self : SwitchBotLockLastUserSensor) : Prop :=
  ∀ log, _current_log self = Some log →
         _last_processed_timestamp self ≤ get_timestamp log.

(** ** Sample data *)

(** Two records, the older one first, both acceptable to a new sensor. *)
Definition out_of_order_logs : list EnrichedLog :=
  [ {| raw := raw_log 90 "590305000000" 1 1; user_id := Some 5;
       user_name := None; source_display := "Ble App";
       action_name := "unlock" |};
    {| raw := raw_log 100 "590307000000" 1 1; user_id := Some 7;
       user_name := None; source_display := "Ble App";
       action_name := "unlock" |} ].

(** A device whose reply lists the older of two events first. *)
Definition out_of_order_device : LockDevice :=
  λ _ _, Ok (Some [raw_log 90 "590305000000" 1 1;
                   raw_log 100 "590307000000" 1 1]).

(** A device that cannot be reached, and one with nothing to report. *)
Definition unreachable_device : LockDevice := λ _ _, Raise DeviceError.

(** One record whose payload is valid for the sensor but carries no user. *)
Definition anonymous_batch : list RawLog := [raw_log 100 "AABBCCDDEEFF" 1 1].
Definition anonymous_device : LockDevice := λ _ _, Ok (Some anonymous_batch).

(** A heap on which list object 1 is the cache of a manager and holds the
    two records of [out_of_order_logs], dictionaries 10 and 11. *)
Definition sample_manager_obj : ManagerObj := {| latest_logs_ref := 1%positive |}.

Definition sample_heap : Heap :=
  {| lists := {[ 1%positive := [10%positive; 11%positive] ]};
     dicts := list_to_map (zip [10%positive; 11%positive] out_of_order_logs) |}.

(** The manager value that heap shows, and a write of a user name into an
    entry. *)
Definition sample_manager : SwitchBotLockLogManager :=
  {| _mac := "AA:BB"; _latest_logs := out_of_order_logs; _listeners := [] |}.

Definition set_user_name (new_name : string) (log : EnrichedLog)
    : EnrichedLog :=
  {| raw := raw log; user_id := user_id log; user_name := Some new_name;
     source_display := source_display log; action_name := action_name log |}.

(** * The rest of the integration *)

(** ** [storage.py]: lock names *)

(** [async_set_lock_name]: a new entry gets an empty user table, an
    existing one keeps whatever keys it has. It has nothing to raise. *)
Definition async_set_lock_name (mac : string) (new_name : string)
    (self : SwitchBotLockUserStore) : SwitchBotLockUserStore :=
  match _data self !! mac with
  | None =>
      async_save
        (set_data (<[mac := {| name := Some new_name; users := Some ∅ |}]>
                     (_data self)) self)
  | Some ld =>
      async_save
        (set_data (<[mac := {| name := Some new_name; users := users ld |}]>
                     (_data self)) self)
  end.

(** [async_get_lock_name] *)
Definition async_get_lock_name (self : SwitchBotLockUserStore) (mac : string)
    : option string :=
  name (async_get_lock_data self mac).

(** The table and the saved document agree. *)
Definition saved (self : SwitchBotLockUserStore) : Prop :=
  _store self = Some (_data self).

(** A restart: a new store over the document the old one left behind,
    loaded as [async_setup] does. *)
Definition restart (self : SwitchBotLockUserStore) : SwitchBotLockUserStore :=
  async_load (new_user_store (_store self)).

(** Every entry of the table has a ["users"] key, as every entry the store
    creates itself has. *)
Definition has_users_everywhere (self : SwitchBotLockUserStore) : Prop :=
  ∀ mac ld, _data self !! mac = Some ld → is_Some (users ld).

(** All 256 characters. *)
Definition all_ascii : list ascii := ascii_of_nat <$> seq 0 256.

(** No string of two characters parses, in base 16, to more than 255. *)
Definition two_char_bound_check : bool :=
  forallb (λ c1,
    forallb (λ c2,
      match Py.int16 (String c1 (String c2 "")) with
      | Ok v => v <=? 255
      | Raise _ => true
      end) all_ascii) all_ascii.

(** ** [lock_log_manager.py]: listeners *)

(** [list.remove(x)]: drops the first occurrence. *)
Fixpoint remove_first (x : Listener) (l : list Listener) : list Listener :=
  match l with
  | [] => []
  | y :: r => if decide (y = x) then r else y :: remove_first x r
  end.

(** The closure [remove_listener] that [async_add_listener] returns. *)
Definition remove_listener (listener : Listener)
    (self : SwitchBotLockLogManager) : SwitchBotLockLogManager :=
  if decide (listener ∈ _listeners self) then
    {| _mac := _mac self;
       _latest_logs := _latest_logs self;
       _listeners := remove_first listener (_listeners self) |}
  else self.

(** ** [sensor.py]: identifiers and state attributes *)

(** [f"{mac_address}-last_activity"] and [f"{mac_address}-last_user"]. *)
Definition last_activity_unique_id (mac_address : string) : string :=
  mac_address +:+ "-last_activity".

Definition last_user_unique_id (mac_address : string) : string :=
  mac_address +:+ "-last_user".

(** A value of a state attribute. *)
Inductive AttrValue : Type :=
| AStr (s : string)
| AInt (n : Z)
| ANone.

Definition attr_of_string (o : option string) : AttrValue :=
  match o with
  | Some s => AStr s
  | None => ANone
  end.

Definition attr_of_int (o : option Z) : AttrValue :=
  match o with
  | Some n => AInt n
  | None => ANone
  end.

(** [x or "Unknown"] on an optional string: [None] and [""] are false. *)
Definition or_unknown (o : option string) : string :=
  match o with
  | Some s => if Py.truthy s then s else "Unknown"
  | None => "Unknown"
  end.

(** [SwitchBotLockLastActivitySensor.extra_state_attributes] *)
Definition last_activity_attributes (log_manager : SwitchBotLockLogManager)
    : gmap string AttrValue :=
  match latest_log log_manager with
  | None => ∅
  | Some latest =>
      if log_truthy latest then
        <["user_id" := attr_of_int (user_id latest)]>
          (<["source" := AStr (source_display latest)]>
             (<["action" := AStr (action_name latest)]>
                (<["user_name" := AStr (or_unknown (user_name latest))]> ∅)))
      else ∅
  end.

Section LastActivity.
(** [datetime.fromtimestamp(t, tz=timezone.utc)], which raises outside the
    range of dates it supports. *)
Context {datetime : Type} (fromtimestamp : Z → result datetime).

(** [SwitchBotLockLastActivitySensor.native_value]: the subscript
    [latest["timestamp"]] raises [KeyError] when the key is missing. *)
Definition last_activity_native_value (log_manager : SwitchBotLockLogManager)
    : result (option datetime) :=
  match latest_log log_manager with
  | Some latest =>
      if log_truthy latest then
        t ← getitem (timestamp (raw latest));
        d ← fromtimestamp t;
        Ok (Some d)
      else Ok None
  | None => Ok None
  end.

End LastActivity.

(** [SwitchBotLockLastUserSensor.extra_state_attributes] *)
Definition last_user_attributes (self : SwitchBotLockLastUserSensor)
    : gmap string AttrValue :=
  match _current_log self with
  | None => ∅
  | Some log =>
      if log_truthy log then
        let attributes : gmap string AttrValue :=
          <["payload" := attr_of_string (payload (raw log))]>
            (<["source" := attr_of_int (source (raw log))]>
               (<["last_activity_action" := AStr (action_name log)]>
                  (<["last_activity_timestamp" :=
                       attr_of_int (timestamp (raw log))]>
                     (<["last_activity" := AStr (source_display log)]> ∅)))) in
        match user_id log with
        | Some uid => <["user_id" := AInt uid]> attributes
        | None => attributes
        end
      else ∅
  end.

(** The states a new sensor reaches while the manager's cache holds what
    fetches put there. *)
Inductive reachable : SwitchBotLockLastUserSensor → Prop :=
| reachable_new : reachable new_last_user_sensor
| reachable_update log_manager self :
    reachable self →
    reachable (fst (_handle_log_update log_manager self)).

(** An enriched record whose raw dictionary has no timestamp key. *)
Definition record_without_timestamp : EnrichedLog :=
  {| raw := {| timestamp := None; source := Some 1; action := Some 1;
               payload := Some "590305000000" |};
     user_id := Some 5; user_name := None;
     source_display := "Ble App"; action_name := "unlock" |}.

(** ** [const.py] *)

Definition DOMAIN : string := "switchbot_lock_logs".
Definition SWITCHBOT_DOMAIN : string := "switchbot".
Definition CONF_DEVICE_ID : string := "device_id".
Definition CONF_DEVICE_NAME : string := "device_name".
Definition CONF_MAC_ADDRESS : string := "mac_address".
Definition DEFAULT_LOCK_LOG_MAX_ENTRIES : Z := 20.
Definition LOCK_MODELS : list string :=
  ["lock"; "lock_pro"; "lock_lite"; "lock_ultra"].

(** ** [__init__.py]: the manager registry *)

(** A config entry, as far as the integration reads it. *)
Record ConfigEntry : Type := {
  entry_id : string;
  domain : string;
  data : gmap string string;
}.

(** What the integration keeps in and reads from [hass]:
    [hass.config_entries.async_get_entry] as a map from entry ids, the
    dictionary [hass.data[DOMAIN]["log_managers"]] in insertion order, and
    the shared user store. *)
Record Hass : Type := {
  config_entries : gmap string ConfigEntry;
  log_managers : list (string * SwitchBotLockLogManager);
  user_store : SwitchBotLockUserStore;
}.

(** The loop of [_find_log_manager_for_device] over [log_managers.items()].
    It returns the manager it stops at together with its key, under which
    the registry is updated when the manager changes. *)
Fixpoint find_log_manager_loop (entries : gmap string ConfigEntry)
    (device_id : string) (items : list (string * SwitchBotLockLogManager))
    : option (string * SwitchBotLockLogManager) :=
  match items with
  | [] => None
  | (entry_id, log_manager) :: rest =>
      match entries !! entry_id with
      | Some entry =>
          let entry_device_id := data entry !! CONF_DEVICE_ID in
          if decide (entry_device_id = Some device_id)
          then Some (entry_id, log_manager)
          else find_log_manager_loop entries device_id rest
      | None => find_log_manager_loop entries device_id rest
      end
  end.

(** [_find_log_manager_for_device] *)
Definition _find_log_manager_for_device (hass : Hass) (device_id : string)
    : option SwitchBotLockLogManager :=
  snd <$> find_log_manager_loop (config_entries hass) device_id
            (log_managers hass).

(** [d[key] = value] on a dictionary kept in insertion order. *)
Fixpoint dict_set {V} (key : string) (value : V) (d : list (string * V))
    : list (string * V) :=
  match d with
  | [] => [(key, value)]
  | (k, v) :: rest =>
      if decide (k = key) then (key, value) :: rest
      else (k, v) :: dict_set key value rest
  end.

(** [d.pop(key, None)] *)
Fixpoint dict_pop {V} (key : string) (d : list (string * V))
    : list (string * V) :=
  match d with
  | [] => []
  | (k, v) :: rest =>
      if decide (k = key) then rest else (k, v) :: dict_pop key rest
  end.

(** [d.get(key)] *)
Fixpoint dict_get {V} (key : string) (d : list (string * V)) : option V :=
  match d with
  | [] => None
  | (k, v) :: rest => if decide (k = key) then Some v else dict_get key rest
  end.

(** The part of [async_setup_entry] that registers the new manager. *)
Definition register_log_manager (entry : ConfigEntry)
    (log_manager : SwitchBotLockLogManager) (hass : Hass) : Hass :=
  {| config_entries := config_entries hass;
     log_managers := dict_set (entry_id entry) log_manager (log_managers hass);
     user_store := user_store hass |}.

(** The part of [async_unload_entry] that forgets the manager. *)
Definition unregister_log_manager (entry : ConfigEntry) (hass : Hass) : Hass :=
  {| config_entries := config_entries hass;
     log_managers := dict_pop (entry_id entry) (log_managers hass);
     user_store := user_store hass |}.

(** ** [__init__.py]: the services *)

(** What a service call ends with when it does not return. *)
Inductive ServiceError : Type :=
| ServiceValidationError (translation_key : string)
| HomeAssistantError (translation_key : string)
| Uncaught (e : exn).

Inductive ServiceResult (A : Type) : Type :=
| Response (a : A)
| Failed (e : ServiceError).

Arguments Response {A} a.
Arguments Failed {A} e.

(** [call.data] of [get_lock_logs]. *)
Record GetLockLogsCall : Type := {
  logs_device_id : string;
  logs_max_entries : option Z;
  logs_base_time : option Z;
}.

(** [call.data] of [set_lock_user_name] and of [delete_lock_user_name]. *)
Record SetLockUserNameCall : Type := {
  set_device_id : string;
  set_user_id : Z;
  set_name : string;
}.

Record DeleteLockUserNameCall : Type := {
  delete_device_id : string;
  delete_user_id : Z;
}.

Definition with_log_manager (key : string)
    (log_manager : SwitchBotLockLogManager) (hass : Hass) : Hass :=
  {| config_entries := config_entries hass;
     log_managers := dict_set key log_manager (log_managers hass);
     user_store := user_store hass |}.

Definition with_user_store (store : SwitchBotLockUserStore) (hass : Hass)
    : Hass :=
  {| config_entries := config_entries hass;
     log_managers := log_managers hass;
     user_store := store |}.

Section Services.
Context `{SwitchbotConst}.

(** The lock device each registered manager was created with, by the key
    of the manager in the registry. *)
Context (lock_devices : string → LockDevice).

(** The service [get_lock_logs], when every listener returns: [hass]
    afterwards, the listeners called and the response. *)
Definition async_get_lock_logs (call : GetLockLogsCall) (hass : Hass)
    : Hass * list Listener * ServiceResult (list EnrichedLog) :=
  let device_id := logs_device_id call in
  let max_entries :=
    default DEFAULT_LOCK_LOG_MAX_ENTRIES (logs_max_entries call) in
  let base_time := default 0 (logs_base_time call) in
  match find_log_manager_loop (config_entries hass) device_id
          (log_managers hass) with
  | None =>
      (hass, [], Failed (ServiceValidationError "device_not_configured"))
  | Some (key, log_manager) =>
      let outcome :=
        async_fetch_logs (lock_devices key) (user_store hass)
          base_time max_entries log_manager in
      let hass' := with_log_manager key (manager_after outcome) hass in
      match returned outcome with
      | Raise _ =>
          (hass', notified outcome,
           Failed (HomeAssistantError "fetch_logs_error"))
      | Ok logs => (hass', notified outcome, Response logs)
      end
  end.

End Services.

(** The service [set_lock_user_name] *)
Definition async_set_lock_user_name (call : SetLockUserNameCall) (hass : Hass)
    : Hass * ServiceResult unit :=
  match _find_log_manager_for_device hass (set_device_id call) with
  | None => (hass, Failed (ServiceValidationError "device_not_configured"))
  | Some log_manager =>
      let '(store, r) :=
        async_set_user (_mac log_manager) (set_user_id call) (set_name call)
          (user_store hass) in
      (with_user_store store hass,
       match r with
       | Ok _ => Response tt
       | Raise e => Failed (Uncaught e)
       end)
  end.

(** The service [delete_lock_user_name] *)
Definition async_delete_lock_user_name (call : DeleteLockUserNameCall)
    (hass : Hass) : Hass * ServiceResult unit :=
  match _find_log_manager_for_device hass (delete_device_id call) with
  | None => (hass, Failed (ServiceValidationError "device_not_configured"))
  | Some log_manager =>
      let '(store, r) :=
        async_delete_user (_mac log_manager) (delete_user_id call)
          (user_store hass) in
      (with_user_store store hass,
       match r with
       | Ok _ => Response tt
       | Raise e => Failed (Uncaught e)
       end)
  end.

(** The registered key [key] does not belong to device [device_id]. *)
Definition not_for_device (entries : gmap string ConfigEntry)
    (device_id : string) (key : string) : Prop :=
  ∀ entry, entries !! key = Some entry →
           data entry !! CONF_DEVICE_ID ≠ Some device_id.

(** A config entry of this integration for a device, and a [hass] that
    holds one manager, registered for it. *)
Definition sample_entry : ConfigEntry :=
  {| entry_id := "entry-1"; domain := DOMAIN;
     data := {[ CONF_DEVICE_ID := "device-1";
                CONF_DEVICE_NAME := "Front door";
                CONF_MAC_ADDRESS := "AA:BB" ]} |}.

Definition sample_hass : Hass :=
  register_log_manager sample_entry (new_log_manager "AA:BB")
    {| config_entries := {[ "entry-1" := sample_entry ]};
       log_managers := [];
       user_store := async_load (new_user_store None) |}.

(** A device with one record of user 5, and that record as the service
    returns it once ["Alice"] is the name of user 5. *)
Definition user_five_device : LockDevice :=
  λ _ _, Ok (Some [raw_log 100 "590305000000" 1 1]).

Definition user_five_response : list EnrichedLog :=
  [ {| raw := raw_log 100 "590305000000" 1 1; user_id := Some 5;
       user_name := Some "Alice"; source_display := "Ble App";
       action_name := "unlock" |} ].

(** ** Listeners as callbacks

    A listener is a callable. Calling it may change state outside the
    manager (a sensor updates itself) and may raise, and
    [_notify_listeners] calls the listeners with no [try] around them: an
    exception of a listener ends the loop and leaves [async_fetch_logs],
    after the cache was replaced. This module follows the same source lines
    as [_notify_listeners], [async_fetch_logs] and [async_get_lock_logs]
    above, which are the case of listeners that all return. A listener
    does not register or remove listeners while it runs: those of the
    integration, the [_handle_log_update] of its sensors, do not. *)

Module Callbacks.
Section WithCallbacks.
Context `{SwitchbotConst}.

(** The state the listeners act on, and what the call [listener()] does to
    it while the manager is as given: the state afterwards, and whether the
    call returns or raises. *)
Context {World : Type}.
Context (call_listener :
           SwitchBotLockLogManager → Listener → World → World * result unit).

(** The loop of [_notify_listeners] over the listeners still to call: the
    state afterwards, the listeners called, and how the loop ends. *)
Fixpoint notify_loop (self : SwitchBotLockLogManager)
    (listeners : list Listener) (world : World)
    : World * list Listener * result unit :=
  match listeners with
  | [] => (world, [], Ok tt)
  | listener :: rest =>
      match call_listener self listener world with
      | (world', Ok _) =>
          let '(world'', called, r) := notify_loop self rest world' in
          (world'', listener :: called, r)
      | (world', Raise e) => (world', [listener], Raise e)
      end
  end.

(** [_notify_listeners] *)
Definition _notify_listeners (self : SwitchBotLockLogManager) (world : World)
    : World * list Listener * result unit :=
  notify_loop self (_listeners self) world.

(** [SwitchBotLockLogManager.async_fetch_logs] *)
Definition async_fetch_logs (lock_device : LockDevice)
    (user_store : SwitchBotLockUserStore) (base_time max_entries : Z)
    (self : SwitchBotLockLogManager) (world : World) : FetchOutcome * World :=
  match lock_device base_time max_entries with
  | Raise e =>
      ({| manager_after := self; notified := []; returned := Raise e |}, world)
  | Ok logs =>
      if no_logs logs then
        ({| manager_after := self; notified := []; returned := Ok [] |}, world)
      else
        match _enrich_logs user_store (_mac self) (default [] logs) with
        | Raise e =>
            ({| manager_after := self; notified := []; returned := Raise e |},
             world)
        | Ok enriched_logs =>
            let self' := {| _mac := _mac self;
                            _latest_logs := enriched_logs;
                            _listeners := _listeners self |} in
            let '(world', called, r) := _notify_listeners self' world in
            ({| manager_after := self';
                notified := called;
                returned := match r with
                            | Ok _ => Ok enriched_logs
                            | Raise e => Raise e
                            end |},
             world')
        end
  end.

(** The service [get_lock_logs]: [hass] afterwards, the listeners called,
    the state they act on afterwards, and the response. [lock_devices]
    gives the lock device each registered manager was created with, by the
    key of the manager. *)
Definition async_get_lock_logs (lock_devices : string → LockDevice)
    (call : GetLockLogsCall) (hass : Hass) (world : World)
    : Hass * list Listener * World * ServiceResult (list EnrichedLog) :=
  let device_id := logs_device_id call in
  let max_entries :=
    default DEFAULT_LOCK_LOG_MAX_ENTRIES (logs_max_entries call) in
  let base_time := default 0 (logs_base_time call) in
  match find_log_manager_loop (config_entries hass) device_id
          (log_managers hass) with
  | None =>
      (hass, [], world,
       Failed (ServiceValidationError "device_not_configured"))
  | Some (key, log_manager) =>
      let '(outcome, world') :=
        async_fetch_logs (lock_devices key) (user_store hass)
          base_time max_entries log_manager world in
      let hass' := with_log_manager key (manager_after outcome) hass in
      match returned outcome with
      | Raise _ =>
          (hass', notified outcome, world',
           Failed (HomeAssistantError "fetch_logs_error"))
      | Ok logs => (hass', notified outcome, world', Response logs)
      end
  end.

End WithCallbacks.
End Callbacks.


(** Listeners that all return and act on nothing. *)
Definition returning_listeners
    : SwitchBotLockLogManager → Listener → unit → unit * result unit :=
  λ _ _ world, (world, Ok tt).


(** ** [__init__.py]: the delayed fetch and its debouncing *)

(** How an [await] that suspends is resumed: normally, or with the
    [CancelledError] of a cancelled task. *)
Inductive Await : Type :=
| Resumed
| CancelledWhileWaiting.

(** How the task ends: it returns, or [CancelledError] leaves it. *)
Inductive TaskEnd : Type :=
| Finished
| CancelledError.

(** What reaches the log above debug level or tells the two apart:
    [LOGGER.exception("Error fetching logs")] and the debug line
    ["Log fetch cancelled (debounced)"]. *)
Inductive LogLine : Type :=
| ErrorFetchingLogs (e : exn)
| LogFetchCancelled.

Record DelayedFetch : Type := {
  fetch_manager : SwitchBotLockLogManager;
  fetch_notified : list Listener;
  fetch_end : TaskEnd;
  fetch_logged : list LogLine;
}.

Section DelayedFetch.
Context `{SwitchbotConst}.

(** [_async_delayed_fetch_logs]. The task suspends in [asyncio.sleep] and
    in [get_logs], the first statement of [async_fetch_logs]; a cancellation
    arrives at one of the two. Every exception of [exn] is an [Exception]. *)
Definition _async_delayed_fetch_logs (sleep get_logs : Await)
    (lock_device : LockDevice) (user_store : SwitchBotLockUserStore)
    (log_manager : SwitchBotLockLogManager) : DelayedFetch :=
  match sleep with
  | CancelledWhileWaiting =>
      {| fetch_manager := log_manager; fetch_notified := [];
         fetch_end := CancelledError; fetch_logged := [LogFetchCancelled] |}
  | Resumed =>
      match get_logs with
      | CancelledWhileWaiting =>
          {| fetch_manager := log_manager; fetch_notified := [];
             fetch_end := CancelledError;
             fetch_logged := [LogFetchCancelled] |}
      | Resumed =>
          let outcome :=
            async_fetch_logs lock_device user_store 0 10 log_manager in
          {| fetch_manager := manager_after outcome;
             fetch_notified := notified outcome;
             fetch_end := Finished;
             fetch_logged :=
               match returned outcome with
               | Raise e => [ErrorFetchingLogs e]
               | Ok _ => []
               end |}
      end
  end.

End DelayedFetch.

(** The state object of an entity, as far as the listener reads it. *)
Record State : Type := {
  state : string;
}.

(** A task made by [hass.async_create_task] for a delayed fetch: its delay
    in seconds, and whether [cancel()] has been called on it. *)
Record FetchTask : Type := {
  delay : Z;
  cancel_called : bool;
}.

(** [LOG_FETCH_DELAY = 2.0] *)
Definition LOG_FETCH_DELAY : Z := 2.

(** The tasks the state listener has made, in order, and the field
    [_pending_fetch_task] of the runtime data, an index into them. *)
Record FetchSchedule : Type := {
  tasks : list FetchTask;
  _pending_fetch_task : option nat;
}.

Definition new_fetch_schedule : FetchSchedule :=
  {| tasks := []; _pending_fetch_task := None |}.

(** [task.cancel()] *)
Definition cancel (i : nat) (ts : list FetchTask) : list FetchTask :=
  alter (λ t, {| delay := delay t; cancel_called := true |}) i ts.

(** [_async_on_lock_state_change] *)
Definition _async_on_lock_state_change (old_state new_state : option State)
    (schedule : FetchSchedule) : FetchSchedule :=
  match old_state, new_state with
  | Some old, Some new =>
      if decide (state old ≠ state new) then
        let ts :=
          match _pending_fetch_task schedule with
          | Some pending => cancel pending (tasks schedule)
          | None => tasks schedule
          end in
        {| tasks := ts ++ [{| delay := LOG_FETCH_DELAY;
                              cancel_called := false |}];
           _pending_fetch_task := Some (length ts) |}
      else schedule
  | _, _ => schedule
  end.

(** The listener run over a sequence of state-change events. *)
Definition on_lock_state_changes (events : list (option State * option State))
    (schedule : FetchSchedule) : FetchSchedule :=
  fold_left (λ s ev, _async_on_lock_state_change ev.1 ev.2 s) events schedule.

(** The event reports a change from one state to a different one. *)
Definition is_change (ev : option State * option State) : bool :=
  match ev with
  | (Some old, Some new) => bool_decide (state old ≠ state new)
  | _ => false
  end.

(** What holds of the schedule after any number of events. *)
Definition debounced (schedule : FetchSchedule) : Prop :=
  _pending_fetch_task schedule
  = match tasks schedule with
    | [] => None
    | _ :: _ => Some (length (tasks schedule) - 1)%nat
    end
  ∧ ∀ (i : nat) t, tasks schedule !! i = Some t →
      delay t = LOG_FETCH_DELAY
      ∧ (cancel_called t = true ↔ (S i < length (tasks schedule))%nat).

(** ** [__init__.py]: the lock entity of a device *)

(** An entry of the entity registry. *)
Record RegistryEntry : Type := {
  entity_id : string;
  entity_domain : string;
  platform : string;
}.

(** [_find_lock_entity_id], over [er.async_entries_for_device(...)]. *)
Fixpoint _find_lock_entity_id (entries : list RegistryEntry) : option string :=
  match entries with
  | [] => None
  | entity :: rest =>
      if decide (entity_domain entity = "lock"
                 ∧ platform entity = SWITCHBOT_DOMAIN)
      then Some (entity_id entity)
      else _find_lock_entity_id rest
  end.

(** ** [config_flow.py] *)

(** A device of the device registry, as far as the flow reads it; the two
    lists are the orders in which the flow iterates the device's sets. *)
Record DeviceEntry : Type := {
  dev_id : string;
  dev_name : option string;
  dev_config_entries : list string;
  connections : list (string * string);
}.

(** [{"name": ..., "mac": ...}] *)
Record LockInfo : Type := {
  lock_name : string;
  lock_mac : string;
}.

(** [device.name or "SwitchBot Lock"] *)
Definition name_or_default (o : option string) : string :=
  match o with
  | Some n => if Py.truthy n then n else "SwitchBot Lock"
  | None => "SwitchBot Lock"
  end.

(** [any(e.data.get(CONF_DEVICE_ID) == device.id for e in existing_entries)] *)
Definition already_configured (existing_entries : list ConfigEntry)
    (device_id : string) : bool :=
  existsb (λ e, bool_decide (data e !! CONF_DEVICE_ID = Some device_id))
          existing_entries.

(** What a step of the flow returns. [AbortUniqueIdConfigured] is the abort
    that [_abort_if_unique_id_configured] raises. *)
Inductive ConfigFlowResult : Type :=
| Abort (reason : string)
| AbortUniqueIdConfigured
| CreateEntry (title : string) (entry_data : gmap string string)
| ShowForm (step_id : string) (options : list (string * string))
    (errors : gmap string string).

Section ConfigFlow.
(** [dr.CONNECTION_BLUETOOTH], a constant of the device registry. *)
Context (CONNECTION_BLUETOOTH : string).

(** The loop over [device.connections]: the address of the first Bluetooth
    connection. *)
Fixpoint bluetooth_mac (conns : list (string * string)) : option string :=
  match conns with
  | [] => None
  | connection :: rest =>
      if decide (connection.1 = CONNECTION_BLUETOOTH) then Some connection.2
      else bluetooth_mac rest
  end.

(** The loop over [device.config_entries], which ends at the first entry of
    the SwitchBot integration. *)
Fixpoint config_entries_loop (entries : gmap string ConfigEntry)
    (existing_entries : list ConfigEntry) (device : DeviceEntry)
    (entry_ids : list string) (available : list (string * LockInfo))
    : list (string * LockInfo) :=
  match entry_ids with
  | [] => available
  | entry_id :: rest =>
      match entries !! entry_id with
      | Some entry =>
          if decide (domain entry = SWITCHBOT_DOMAIN) then
            let sensor_type := default "" (data entry !! "sensor_type") in
            if decide (sensor_type ∈ LOCK_MODELS) then
              match bluetooth_mac (connections device) with
              | Some mac =>
                  if Py.truthy mac then
                    if negb (already_configured existing_entries
                               (dev_id device))
                    then
                      dict_set (dev_id device)
                        {| lock_name := name_or_default (dev_name device);
                           lock_mac := mac |}
                        available
                    else available
                  else available
              | None => available
              end
            else available
          else
            config_entries_loop entries existing_entries device rest available
      | None =>
          config_entries_loop entries existing_entries device rest available
      end
  end.

(** The loop over [dev_reg.devices.values()]. *)
Fixpoint devices_loop (entries : gmap string ConfigEntry)
    (existing_entries : list ConfigEntry) (devices : list DeviceEntry)
    (available : list (string * LockInfo)) : list (string * LockInfo) :=
  match devices with
  | [] => available
  | device :: rest =>
      devices_loop entries existing_entries rest
        (config_entries_loop entries existing_entries device
           (dev_config_entries device) available)
  end.

(** [_async_find_switchbot_locks]: the new value of [_available_locks]. *)
Definition _async_find_switchbot_locks (entries : gmap string ConfigEntry)
    (existing_entries : list ConfigEntry) (devices : list DeviceEntry)
    : list (string * LockInfo) :=
  devices_loop entries existing_entries devices [].

(** The options of the device selector. *)
Definition device_options (available : list (string * LockInfo))
    : list (string * string) :=
  (λ item : string * LockInfo,
     (item.1, lock_name item.2 +:+ " (" +:+ lock_mac item.2 +:+ ")"))
  <$> available.

(** [async_step_user]; [user_input] is the device id chosen in the form. *)
Definition async_step_user (unique_id_configured : string → bool)
    (entries : gmap string ConfigEntry) (existing_entries : list ConfigEntry)
    (devices : list DeviceEntry) (user_input : option string)
    : ConfigFlowResult :=
  let available :=
    _async_find_switchbot_locks entries existing_entries devices in
  match available with
  | [] => Abort "no_locks_found"
  | _ :: _ =>
      match user_input with
      | Some device_id =>
          match dict_get device_id available with
          | None =>
              ShowForm "user" (device_options available)
                {[ "base" := "device_not_found" ]}
          | Some lock_info =>
              if unique_id_configured device_id then AbortUniqueIdConfigured
              else
                CreateEntry (lock_name lock_info +:+ " Logs")
                  {[ CONF_DEVICE_ID := device_id;
                     CONF_DEVICE_NAME := lock_name lock_info;
                     CONF_MAC_ADDRESS := lock_mac lock_info ]}
          end
      | None => ShowForm "user" (device_options available) ∅
      end
  end.

(** What the flow may offer: a lock of the SwitchBot integration with a
    Bluetooth address that this integration does not cover yet. *)
Definition offerable (entries : gmap string ConfigEntry)
    (existing_entries : list ConfigEntry) (devices : list DeviceEntry)
    (device_id : string) (info : LockInfo) : Prop :=
  already_configured existing_entries device_id = false
  ∧ lock_mac info ≠ ""
  ∧ lock_name info ≠ ""
  ∧ ∃ device,
      device ∈ devices
      ∧ dev_id device = device_id
      ∧ lock_name info = name_or_default (dev_name device)
      ∧ (CONNECTION_BLUETOOTH, lock_mac info) ∈ connections device
      ∧ ∃ entry_id entry sensor_type,
          entry_id ∈ dev_config_entries device
          ∧ entries !! entry_id = Some entry
          ∧ domain entry = "switchbot"
          ∧ data entry !! "sensor_type" = Some sensor_type
          ∧ sensor_type ∈ LOCK_MODELS.

(** The dictionary under construction has distinct keys and holds only
    offerable locks. *)
Definition offers_only entries existing_entries devices
    (available : list (string * LockInfo)) : Prop :=
  NoDup available.*1
  ∧ ∀ device_id info,
      (device_id, info) ∈ available →
      offerable entries existing_entries devices device_id info.

End ConfigFlow.

(** A registry with one SwitchBot lock, not yet configured here. *)
Definition sample_switchbot_entry : ConfigEntry :=
  {| entry_id := "sb-1"; domain := SWITCHBOT_DOMAIN;
     data := {[ "sensor_type" := "lock_pro" ]} |}.

Definition sample_device : DeviceEntry :=
  {| dev_id := "device-1"; dev_name := Some "Front door";
     dev_config_entries := ["sb-1"];
     connections := [("bluetooth", "AA:BB")] |}.

(** ** From a notification to the sensors *)

Section SensorCallbacks.

(** [async_write_ha_state] of the entity behind a listener. It is Home
    Assistant's: it reads the properties of the entity, which read the
    manager and, for a last-user sensor, the state of the sensor, and it
    returns or raises (the last-activity sensor's [native_value] raises on a
    first record without a timestamp). *)
Context (async_write_ha_state :
           SwitchBotLockLogManager → Listener
           → option SwitchBotLockLastUserSensor → result unit).


End SensorCallbacks.


(** Two records, the newer one first. *)
Definition newest_first_logs : list EnrichedLog :=
  [ {| raw := raw_log 100 "590307000000" 1 1; user_id := Some 7;
       user_name := None; source_display := "Ble App";
       action_name := "unlock" |};
    {| raw := raw_log 90 "590305000000" 1 1; user_id := Some 5;
       user_name := None; source_display := "Ble App";
       action_name := "unlock" |} ].

(** * Properties *)

(** ** User id extraction *)

Lemma result_bind_unfold {A B} (f : A → result B) (m : result A) :
  m ≫= f = match m with Ok a => f a | Raise e => Raise e end.
Proof. reflexivity. Qed.

Lemma hex_digit_code c d :
  Py.hex_digit_value c = Some d →
  (48 ≤ Py.code c ≤ 57 ∨ 65 ≤ Py.code c ≤ 70 ∨ 97 ≤ Py.code c ≤ 102)
  ∧ 0 ≤ d < 16.
Proof.
  unfold Py.hex_digit_value. generalize (Py.code c). intros n Hn.
  repeat case_match; simplify_eq; lia.
Qed.

Lemma hex_digit_not_space c d :
  Py.hex_digit_value c = Some d → Py.is_space c = false.
Proof.
  intros [Hc _]%hex_digit_code. unfold Py.is_space.
  generalize dependent (Py.code c). intros n Hn. lia.
Qed.

(** Two hex digits parse as the byte they spell. *)
Lemma int16_two_hex_digits c1 c2 d1 d2 :
  Py.hex_digit_value c1 = Some d1 →
  Py.hex_digit_value c2 = Some d2 →
  Py.int16 (String c1 (String c2 "")) = Ok (16 * d1 + d2).
Proof.
  intros H1 H2.
  pose proof (hex_digit_not_space _ _ H1) as Hs1.
  destruct (hex_digit_code _ _ H1) as [Hc1 _].
  destruct (hex_digit_code _ _ H2) as [Hc2 _].
  unfold Py.int16. cbn [list_ascii_of_string Py.skip_spaces]. rewrite Hs1.
  unfold Py.strip_sign.
  destruct (Z.eqb_spec (Py.code c1) 43) as [?|_]; [lia|].
  destruct (Z.eqb_spec (Py.code c1) 45) as [?|_]; [lia|].
  assert ((Py.code c1 =? 48) && ((Py.code c2 =? 120) || (Py.code c2 =? 88))
          = false) as Hp by lia.
  unfold Py.strip_prefix16. rewrite Hp, H1.
  cbn [Py.scan_digits]. rewrite H2. cbn [Py.skip_spaces].
  f_equal. lia.
Qed.

(** A payload that passes the length guard starts with six characters. *)
Lemma payload_six_chars payload :
  (negb (Py.truthy payload) || (Py.len payload <? 6)) = false →
  ∃ c0 c1 c2 c3 c4 c5 rest,
    payload = String c0 (String c1 (String c2 (String c3
                (String c4 (String c5 rest))))).
Proof.
  unfold Py.len. intros Hg.
  do 6 (destruct payload as [|? payload]; [cbn in Hg; try lia; discriminate|]).
  eauto 10.
Qed.

Lemma code_inj c c' : Py.code c = Py.code c' → c = c'.
Proof.
  unfold Py.code. intros Hc%(inj Z.of_N).
  rewrite <- (ascii_N_embedding c), <- (ascii_N_embedding c'). congruence.
Qed.

(** A hex digit below ten is written with the decimal digit itself. *)
Lemma hex_digit_decimal c d :
  Py.hex_digit_value c = Some d → d < 10 → Py.code c = 48 + d.
Proof.
  unfold Py.hex_digit_value. generalize (Py.code c). intros n Hn Hd.
  repeat case_match; simplify_eq; lia.
Qed.

Lemma byte_of_decimal_eqb c1 c2 a b :
  0 ≤ a < 10 → 0 ≤ b < 10 →
  Py.hex_digit_value (decimal_digit a) = Some a →
  Py.hex_digit_value (decimal_digit b) = Some b →
  match byte_of c1 c2 with Some v => v =? 16 * a + b | None => false end
  = String.eqb (String c1 (String c2 ""))
               (String (decimal_digit a) (String (decimal_digit b) "")).
Proof.
  intros Ha Hb Hda Hdb. apply eq_true_iff_eq. unfold byte_of. split.
  - destruct (Py.hex_digit_value c1) as [d1|] eqn:H1; [|discriminate].
    destruct (Py.hex_digit_value c2) as [d2|] eqn:H2; [|discriminate].
    cbn. intros Hv%Z.eqb_eq.
    destruct (hex_digit_code _ _ H1) as [_ ?].
    destruct (hex_digit_code _ _ H2) as [_ ?].
    assert (d1 = a) as -> by lia. assert (d2 = b) as -> by lia.
    assert (c1 = decimal_digit a) as ->.
    { apply code_inj. rewrite (hex_digit_decimal _ _ H1) by lia.
      symmetry. apply hex_digit_decimal; [done|lia]. }
    assert (c2 = decimal_digit b) as ->.
    { apply code_inj. rewrite (hex_digit_decimal _ _ H2) by lia.
      symmetry. apply hex_digit_decimal; [done|lia]. }
    by rewrite !Ascii.eqb_refl.
  - intros Heq%String.eqb_eq. simplify_eq. rewrite Hda, Hdb. cbn.
    apply Z.eqb_refl.
Qed.

Lemma byte_is_decimal_text i payload a b :
  0 ≤ a < 10 → 0 ≤ b < 10 →
  Py.hex_digit_value (decimal_digit a) = Some a →
  Py.hex_digit_value (decimal_digit b) = Some b →
  byte_is i payload (16 * a + b)
  = String.eqb (Py.slice payload (2 * i) (2 * i + 2))
               (String (decimal_digit a) (String (decimal_digit b) "")).
Proof.
  intros Ha Hb Hda Hdb. unfold byte_is, byte_at.
  generalize (Py.slice payload (2 * i) (2 * i + 2)).
  intros [|c1 [|c2 [|c3 s]]].
  - reflexivity.
  - cbn. by destruct (Ascii.eqb c1 _).
  - apply (byte_of_decimal_eqb c1 c2 a b); assumption.
  - cbn. destruct (Ascii.eqb c1 _); [|done]. by destruct (Ascii.eqb c2 _).
Qed.

(** The textual test of the code is the byte test of the specification. *)
Lemma user_prefix_textual payload :
  has_user_prefix payload
  = String.eqb (Py.slice payload 0 2) "59"
    && Py.in_tuple (Py.slice payload 2 4) ["01"; "03"].
Proof.
  unfold has_user_prefix, Py.in_tuple, existsb. rewrite orb_false_r.
  rewrite (byte_is_decimal_text 0 payload 5 9 ltac:(lia) ltac:(lia)
             eq_refl eq_refl : byte_is 0 payload 0x59 = _).
  rewrite (byte_is_decimal_text 1 payload 0 1 ltac:(lia) ltac:(lia)
             eq_refl eq_refl : byte_is 1 payload 0x01 = _).
  rewrite (byte_is_decimal_text 1 payload 0 3 ltac:(lia) ltac:(lia)
             eq_refl eq_refl : byte_is 1 payload 0x03 = _).
  reflexivity.
Qed.

Lemma append_empty_r s : s +:+ "" = s.
Proof.
  induction s as [|c s IH]; [done|].
  change (String c (s +:+ "") = String c s). by rewrite IH.
Qed.

Lemma substring_0_0 s : substring 0 0 s = "".
Proof. by destruct s. Qed.

Lemma int16_raises_only_ValueError s e :
  Py.int16 s = Raise e → e = ValueError.
Proof.
  unfold Py.int16. intros Hr. repeat case_match; congruence.
Qed.

(** The [try] of [_extract_user_id] catches whatever its body raises. *)
Lemma extract_user_id_total payload :
  ∃ r, _extract_user_id payload = Ok r.
Proof.
  unfold _extract_user_id.
  destruct (negb (Py.truthy payload) || (Py.len payload <? 6)); [by eexists|].
  destruct (String.eqb _ _ && Py.in_tuple _ _); [|by eexists].
  rewrite result_bind_unfold.
  destruct (Py.int16 _) as [v|e] eqn:Hv; [by eexists|].
  apply int16_raises_only_ValueError in Hv as ->. by eexists.
Qed.

Lemma extract_user_id_without_prefix payload :
  has_user_prefix payload = false → _extract_user_id payload = Ok None.
Proof.
  intros Hp. unfold _extract_user_id.
  rewrite <- user_prefix_textual, Hp. by case_match.
Qed.

Lemma extract_user_id_short payload :
  Py.len payload < 6 → _extract_user_id payload = Ok None.
Proof.
  intros Hl. unfold _extract_user_id.
  assert ((Py.len payload <? 6) = true) as -> by lia.
  by rewrite orb_true_r.
Qed.

Lemma extract_user_id_parse_failure payload :
  raises (Py.int16 (Py.slice payload 4 6)) →
  _extract_user_id payload = Ok None.
Proof.
  intros [e He]. unfold _extract_user_id.
  case_match; [done|]. case_match; [|done].
  rewrite He. apply int16_raises_only_ValueError in He as ->. reflexivity.
Qed.

Lemma extract_user_id_hex payload :
  6 ≤ Py.len payload →
  is_hex_string payload = true →
  has_user_prefix payload = true →
  ∃ v, byte_at 2 payload = Some v
       ∧ _extract_user_id payload = Ok (if v =? 0 then None else Some v).
Proof.
  intros Hl Hhex Hp. unfold _extract_user_id.
  rewrite <- user_prefix_textual, Hp.
  destruct (negb (Py.truthy payload) || (Py.len payload <? 6)) eqn:Hg.
  { destruct payload; cbn in Hg; [unfold Py.len in Hl; cbn in Hl|]; lia. }
  destruct (payload_six_chars _ Hg)
    as (c0 & c1 & c2 & c3 & c4 & c5 & rest & ->).
  unfold is_hex_string in Hhex. cbn [list_ascii_of_string forallb] in Hhex.
  do 4 (apply andb_prop in Hhex as [_ Hhex]).
  apply andb_prop in Hhex as [[d4 H4]%bool_decide_eq_true_1 Hhex].
  apply andb_prop in Hhex as [[d5 H5]%bool_decide_eq_true_1 _].
  destruct (hex_digit_code _ _ H4) as [_ ?].
  destruct (hex_digit_code _ _ H5) as [_ ?].
  exists (16 * d4 + d5). split.
  - unfold byte_at. cbn. rewrite substring_0_0, H4, H5. reflexivity.
  - unfold Py.slice. cbn [substring Nat.sub]. rewrite substring_0_0.
    rewrite (int16_two_hex_digits _ _ _ _ H4 H5). cbn.
    destruct (Z.eqb_spec (16 * d4 + d5) 0) as [->|?]; [done|].
    assert ((16 * d4 + d5 >? 0) = true) as -> by lia. done.
Qed.

(** C3, as stated, fails: the code never looks at bytes 3 to 5, so a payload
    outside the pattern [59 01|03 XX 00 00] can still carry a user id. *)
Lemma extract_user_id_ignores_tail :
  ¬ (∀ payload,
       matches_zero_tail_pattern payload = false →
       _extract_user_id payload = Ok None).
Proof.
  intros Hc. specialize (Hc "590105FFFFFF" eq_refl).
  vm_compute in Hc. discriminate.
Qed.

(** C3 (amended): a payload whose byte 0 is not [0x59] or whose byte 1 is
    neither [0x01] nor [0x03] has no user id; [extract_user_id] returns
    absent for it, whatever the remaining bytes are. *)
Theorem extract_user_id_needs_prefix payload :
  has_user_prefix payload = false → _extract_user_id payload = Ok None.
Proof. apply extract_user_id_without_prefix. Qed.

Lemma extract_user_id_needs_prefix_witness :
  has_user_prefix "580105000000" = false
  ∧ _extract_user_id "580105000000" = Ok None.
Proof.
  split; [reflexivity|].
  apply (extract_user_id_needs_prefix "580105000000"). reflexivity.
Defined.

(** C4, as stated, fails on its examples: in ["590103000000"] and
    ["590103050000"] byte 1 is [01] and byte 2 is [03], so both give user 3. *)
Lemma extract_user_id_spec_examples :
  _extract_user_id "590103000000" = Ok (Some 3)
  ∧ _extract_user_id "590103050000" = Ok (Some 3)
  ∧ ¬ (_extract_user_id "590103000000" = Ok None
       ∧ _extract_user_id "590103050000" = Ok (Some 5)).
Proof.
  split; [reflexivity|]. split; [reflexivity|].
  intros [Hc _]. vm_compute in Hc. discriminate.
Qed.

(** C4 (amended): for a hex payload of at least six characters whose byte 0
    is [0x59] and whose byte 1 is [0x01] or [0x03], [extract_user_id] returns
    the value of byte 2 when it is not zero and absent when it is zero;
    ["590300000000"] gives absent and ["590305000000"] gives 5; a short
    payload or a failing parse gives absent, and no payload makes it raise. *)
Theorem extract_user_id_algorithm :
  (∀ payload,
     6 ≤ Py.len payload →
     is_hex_string payload = true →
     byte_at 0 payload = Some 0x59 →
     byte_at 1 payload = Some 0x01 ∨ byte_at 1 payload = Some 0x03 →
     ∃ v, byte_at 2 payload = Some v
          ∧ _extract_user_id payload = Ok (if v =? 0 then None else Some v))
  ∧ _extract_user_id "590300000000" = Ok None
  ∧ _extract_user_id "590305000000" = Ok (Some 5)
  ∧ (∀ payload, Py.len payload < 6 → _extract_user_id payload = Ok None)
  ∧ (∀ payload,
       raises (Py.int16 (Py.slice payload 4 6)) →
       _extract_user_id payload = Ok None)
  ∧ (∀ payload, ¬ raises (_extract_user_id payload)).
Proof.
  split; [|split; [reflexivity|split; [reflexivity|split; [|split]]]].
  - intros payload Hl Hhex H0 H1. apply extract_user_id_hex; [done..|].
    unfold has_user_prefix, byte_is. rewrite H0.
    destruct H1 as [-> | ->]; reflexivity.
  - apply extract_user_id_short.
  - apply extract_user_id_parse_failure.
  - intros payload [e He]. destruct (extract_user_id_total payload) as [r Hr].
    congruence.
Qed.

Lemma extract_user_id_algorithm_witness :
  ∃ v, byte_at 2 "5901a7000000" = Some v
       ∧ _extract_user_id "5901a7000000" = Ok (if v =? 0 then None else Some v).
Proof.
  apply (proj1 extract_user_id_algorithm "5901a7000000").
  - vm_compute. discriminate.
  - reflexivity.
  - reflexivity.
  - left. reflexivity.
Defined.

(** ** Enrichment *)

Section EnrichmentFacts.
Context `{SwitchbotConst}.

(** One pass of the loop body never raises, and these are its fields. *)
Lemma enrich_log_ok users log :
  ∃ e, enrich_log users log = Ok e
       ∧ raw e = log
       ∧ _extract_user_id (default "" (payload log)) = Ok (user_id e)
       ∧ user_name e = (user_id e ≫= λ uid, users !! Py.str uid)
       ∧ source_display e = source_label log
       ∧ action_name e = action_label log.
Proof.
  unfold enrich_log, source_label, action_label, member_name, getitem.
  destruct (extract_user_id_total (default "" (payload log))) as [r ->].
  rewrite result_bind_unfold.
  destruct (source log) as [src|]; cbn;
    [destruct (LockLogSource src); cbn|];
    (destruct (action log) as [act|]; cbn;
       [destruct (LockLogAction act); cbn|]);
    (eexists; split; [reflexivity|]; cbn; repeat split;
     destruct r as [uid|]; cbn; [by destruct (users !! _)|done]).
Qed.

Lemma enrich_loop_ok users logs : ∀ enriched,
  ∃ out, enrich_loop users logs enriched = Ok (enriched ++ out)%list
         ∧ Forall2 (λ log e, enrich_log users log = Ok e) logs out.
Proof.
  induction logs as [|log rest IH]; intros enriched; cbn.
  - exists []. by rewrite app_nil_r.
  - destruct (enrich_log_ok users log) as (e & He & _).
    rewrite He, result_bind_unfold.
    destruct (IH (enriched ++ [e])%list) as (out & -> & Hout).
    exists (e :: out). rewrite <- app_assoc. split; [done|].
    by constructor.
Qed.

Lemma enrich_logs_ok user_store mac logs :
  ∃ out, _enrich_logs user_store mac logs = Ok out
         ∧ Forall2 (λ log e,
                      enrich_log (async_get_users user_store mac) log = Ok e)
                   logs out.
Proof.
  unfold _enrich_logs.
  destruct (enrich_loop_ok (async_get_users user_store mac) logs [])
    as (out & Hout & Hall).
  by exists out.
Qed.

(** The user name of an enriched record is the table's entry for its id. *)
Lemma enrich_logs_user_name user_store mac logs enriched :
  _enrich_logs user_store mac logs = Ok enriched →
  ∀ e, e ∈ enriched →
       user_name e
       = (user_id e ≫= λ uid, async_get_users user_store mac !! Py.str uid).
Proof.
  intros Henr e (i & Hi)%list_elem_of_lookup.
  destruct (enrich_logs_ok user_store mac logs) as (out & Hout & Hall).
  assert (out = enriched) as -> by congruence.
  destruct (Forall2_lookup_r _ _ _ _ _ Hall Hi) as (log & _ & He).
  destruct (enrich_log_ok (async_get_users user_store mac) log)
    as (e' & He' & _ & _ & Hn & _).
  by assert (e' = e) as -> by congruence.
Qed.

(** C6: enrichment returns one record per input record, in the input
    order, record [i] of the output enriching record [i] of the input; the
    user name of an output record is the table's entry for the string form
    of its user id, hence present exactly when the id is present and
    mapped, and [None] otherwise. *)
Theorem enrich_logs_order_and_names user_store mac logs :
  ∃ enriched,
    _enrich_logs user_store mac logs = Ok enriched
    ∧ length enriched = length logs
    ∧ (∀ i log, logs !! i = Some log →
         ∃ e, enriched !! i = Some e
              ∧ raw e = log
              ∧ _extract_user_id (default "" (payload log)) = Ok (user_id e))
    ∧ (∀ e, e ∈ enriched →
         user_name e
         = (user_id e ≫= λ uid, async_get_users user_store mac !! Py.str uid))
    ∧ (∀ e, e ∈ enriched →
         is_Some (user_name e)
         ↔ ∃ uid, user_id e = Some uid
                  ∧ is_Some (async_get_users user_store mac !! Py.str uid)).
Proof.
  destruct (enrich_logs_ok user_store mac logs) as (out & Hout & Hall).
  exists out. split; [done|].
  pose proof (enrich_logs_user_name _ _ _ _ Hout) as Hname.
  split; [symmetry; by eapply Forall2_length|].
  split; [|split; [done|]].
  - intros i log Hi.
    destruct (Forall2_lookup_l _ _ _ _ _ Hall Hi) as (e & He & Hen).
    destruct (enrich_log_ok (async_get_users user_store mac) log)
      as (e' & He' & Hraw & Hid & _).
    assert (e' = e) as -> by congruence. by exists e.
  - intros e He. rewrite (Hname e He).
    destruct (user_id e) as [uid|]; cbn.
    + split; [by eexists|]. by intros (? & ? & ?); simplify_eq.
    + split; [by intros []|]. by intros (? & ? & _).
Qed.

(** C8: enrichment never raises; for a source code outside the enumeration
    the source label is ["Unknown (Source N)"], for an action code outside
    it the action name is ["unknown_N"], [N] being the decimal code, and
    with the key missing the label is built with ["?"] instead. *)
Theorem enrich_logs_unknown_codes user_store mac logs :
  ∃ enriched,
    _enrich_logs user_store mac logs = Ok enriched
    ∧ ∀ i log, logs !! i = Some log →
        ∃ e, enriched !! i = Some e
          ∧ (∀ c, source log = Some c → LockLogSource c = None →
               source_display e = "Unknown (Source " +:+ Py.str c +:+ ")"
               ∧ contains (Py.str c) (source_display e))
          ∧ (∀ c, action log = Some c → LockLogAction c = None →
               action_name e = "unknown_" +:+ Py.str c
               ∧ contains (Py.str c) (action_name e))
          ∧ (source log = None → source_display e = "Unknown (Source ?)")
          ∧ (action log = None → action_name e = "unknown_?").
Proof.
  destruct (enrich_logs_ok user_store mac logs) as (out & Hout & Hall).
  exists out. split; [done|]. intros i log Hi.
  destruct (Forall2_lookup_l _ _ _ _ _ Hall Hi) as (e & He & Hen).
  destruct (enrich_log_ok (async_get_users user_store mac) log)
    as (e' & He' & _ & _ & _ & Hsrc & Hact).
  assert (e' = e) as -> by congruence. exists e. split; [done|].
  rewrite Hsrc, Hact. unfold source_label, action_label, format_code.
  split; [|split; [|split]].
  - intros c Hs Hc. rewrite Hs.
    change (Some c ≫= LockLogSource) with (LockLogSource c). rewrite Hc.
    split; [reflexivity|]. exists "Unknown (Source ", ")". reflexivity.
  - intros c Ha Hc. rewrite Ha.
    change (Some c ≫= LockLogAction) with (LockLogAction c). rewrite Hc.
    split; [reflexivity|]. exists "unknown_", "".
    by rewrite append_empty_r.
  - intros ->. reflexivity.
  - intros ->. reflexivity.
Qed.

End EnrichmentFacts.

(** ** The last-user sensor *)

Lemma is_valid_payload_spec payload :
  _is_valid_payload payload = valid_payload_spec payload.
Proof.
  unfold _is_valid_payload, valid_payload_spec.
  destruct payload as [|c s]; [reflexivity|]. cbn [Py.truthy negb orb].
  destruct (Z.ltb_spec (Py.len (String c s)) 6),
           (Z.leb_spec 6 (Py.len (String c s))); (reflexivity || lia).
Qed.

(** The test of the loop is the acceptance test of the specification. *)
Lemma loop_test_acceptable self log :
  (get_timestamp log >? _last_processed_timestamp self)
  && _is_valid_payload (get_payload log)
  = acceptable (_last_processed_timestamp self) log.
Proof.
  unfold acceptable. rewrite is_valid_payload_spec. f_equal.
  destruct (Z.gtb_spec (get_timestamp log) (_last_processed_timestamp self)),
           (Z.ltb_spec (_last_processed_timestamp self) (get_timestamp log));
    (reflexivity || lia).
Qed.

Lemma newest_valid_loop_Some self logs e :
  newest_valid_loop self logs = Some e ↔
  ∃ before after,
    logs = (before ++ e :: after)%list
    ∧ acceptable (_last_processed_timestamp self) e = true
    ∧ Forall (λ x, acceptable (_last_processed_timestamp self) x = false)
             before.
Proof.
  induction logs as [|log rest IH]; cbn [newest_valid_loop].
  - split; [discriminate|]. intros ([|??] & ? & ? & _); discriminate.
  - rewrite loop_test_acceptable.
    destruct (acceptable (_last_processed_timestamp self) log) eqn:Hacc.
    + split.
      * intros [= ->]. exists [], rest. by repeat split.
      * intros ([|x before] & after & Heq & He & Hnone); simplify_eq/=;
          [done|]. apply Forall_cons in Hnone as [? _]. congruence.
    + rewrite IH. split.
      * intros (before & after & -> & He & Hnone).
        exists (log :: before), after. repeat split; [done|].
        by constructor.
      * intros ([|x before] & after & Heq & He & Hnone); simplify_eq/=;
          [congruence|].
        apply Forall_cons in Hnone as [_ ?]. by exists before, after.
Qed.

Lemma newest_valid_loop_None self logs :
  newest_valid_loop self logs = None ↔
  Forall (λ x, acceptable (_last_processed_timestamp self) x = false) logs.
Proof.
  induction logs as [|log rest IH]; cbn [newest_valid_loop].
  - split; [constructor|done].
  - rewrite loop_test_acceptable.
    destruct (acceptable (_last_processed_timestamp self) log) eqn:Hacc.
    + split; [discriminate|]. intros [? _]%Forall_cons. congruence.
    + rewrite IH. split; [by constructor|]. by intros [_ ?]%Forall_cons.
Qed.

(** C2: the selection returns the first entry, in the order of the cached
    batch, whose timestamp is strictly greater than the high-water mark and
    whose payload has at least six characters and is not ["000000000000"];
    it returns nothing exactly when no entry qualifies; it is not a search
    for the maximum; and an entry with the all-zero payload is never
    returned. *)
Theorem newest_valid_log_first_match :
  (∀ log_manager self e,
     _get_newest_valid_log log_manager self = Some e ↔
     ∃ before after,
       latest_logs log_manager = (before ++ e :: after)%list
       ∧ acceptable (_last_processed_timestamp self) e = true
       ∧ Forall (λ x, acceptable (_last_processed_timestamp self) x = false)
                before)
  ∧ (∀ log_manager self,
       _get_newest_valid_log log_manager self = None ↔
       Forall (λ x, acceptable (_last_processed_timestamp self) x = false)
              (latest_logs log_manager))
  ∧ (∀ log_manager self e,
       _get_newest_valid_log log_manager self = Some e →
       get_payload e ≠ "000000000000")
  ∧ (∃ log_manager self e later,
       _get_newest_valid_log log_manager self = Some e
       ∧ later ∈ latest_logs log_manager
       ∧ acceptable (_last_processed_timestamp self) later = true
       ∧ get_timestamp e < get_timestamp later).
Proof.
  split; [|split; [|split]].
  - intros. apply newest_valid_loop_Some.
  - intros. apply newest_valid_loop_None.
  - intros log_manager self e
      (before & after & _ & Hacc & _)%newest_valid_loop_Some Hzero.
    unfold acceptable, valid_payload_spec in Hacc. rewrite Hzero in Hacc.
    cbn in Hacc. by rewrite andb_false_r in Hacc.
  - exists {| _mac := "AA:BB"; _latest_logs := out_of_order_logs;
              _listeners := [] |}, new_last_user_sensor.
    eexists _, _. split; [reflexivity|]. split.
    + apply list_elem_of_lookup. by exists 1%nat.
    + split; [reflexivity|]. cbn. lia.
Qed.

Lemma newest_valid_log_first_match_witness :
  get_payload
    {| raw := raw_log 90 "590305000000" 1 1; user_id := Some 5;
       user_name := None; source_display := "Ble App";
       action_name := "unlock" |} ≠ "000000000000".
Proof.
  apply (proj1 (proj2 (proj2 newest_valid_log_first_match))
           {| _mac := "AA:BB"; _latest_logs := out_of_order_logs;
              _listeners := [] |} new_last_user_sensor).
  reflexivity.
Defined.

Lemma handle_log_update_cases log_manager self :
  (_get_newest_valid_log log_manager self = None
   ∧ fst (_handle_log_update log_manager self) = self)
  ∨ (∃ log,
       _get_newest_valid_log log_manager self = Some log
       ∧ acceptable (_last_processed_timestamp self) log = true
       ∧ fst (_handle_log_update log_manager self)
         = {| _last_processed_timestamp := get_timestamp log;
              _current_log := Some log |}).
Proof.
  unfold _handle_log_update.
  destruct (_get_newest_valid_log log_manager self) as [log|] eqn:Hnew.
  - right. exists log. repeat split.
    by apply newest_valid_loop_Some in Hnew as (? & ? & _ & ? & _).
  - by left.
Qed.

Lemma handle_log_update_mono log_manager self :
  _last_processed_timestamp self
  ≤ _last_processed_timestamp (fst (_handle_log_update log_manager self)).
Proof.
  destruct (handle_log_update_cases log_manager self)
    as [[_ ->]|(log & _ & Hacc & ->)]; [lia|].
  unfold acceptable in Hacc. cbn. lia.
Qed.

Lemma handle_log_update_inv log_manager self :
  tracker_inv self → tracker_inv (fst (_handle_log_update log_manager self)).
Proof.
  intros Hinv.
  destruct (handle_log_update_cases log_manager self)
    as [[_ ->]|(log & _ & _ & ->)]; [done|].
  intros log' [= <-]. cbn. lia.
Qed.

Lemma handle_log_update_keeps_entry log_manager self :
  is_Some (_current_log self) →
  is_Some (_current_log (fst (_handle_log_update log_manager self))).
Proof.
  intros Hsome.
  destruct (handle_log_update_cases log_manager self)
    as [[_ ->]|(log & _ & _ & ->)]; [done|]. by eexists.
Qed.

Lemma handle_log_update_stale log_manager self :
  Forall (λ e, get_timestamp e ≤ _last_processed_timestamp self)
         (latest_logs log_manager) →
  fst (_handle_log_update log_manager self) = self.
Proof.
  intros Hold.
  destruct (handle_log_update_cases log_manager self)
    as [[_ ->]|(log & Hnew & Hacc & _)]; [done|].
  apply newest_valid_loop_Some in Hnew as (before & after & Heq & _).
  unfold latest_logs in Hold. fold (latest_logs log_manager) in Heq.
  unfold latest_logs in Heq. rewrite Heq in Hold.
  apply Forall_app in Hold as [_ [Hlog _]%Forall_cons].
  unfold acceptable in Hacc. lia.
Qed.

(** C1: over any run of updates the high-water mark never decreases; in
    every state reached from a new sensor the current entry, once there is
    one, has a timestamp at least the high-water mark, and it is never reset
    to absent; an update over a batch whose timestamps are all at most the
    high-water mark changes neither field. *)
Theorem tracker_monotonic_and_sticky :
  (∀ managers self,
     _last_processed_timestamp self
     ≤ _last_processed_timestamp (handle_updates managers self))
  ∧ (∀ managers self,
       tracker_inv self → tracker_inv (handle_updates managers self))
  ∧ (∀ managers, tracker_inv (handle_updates managers new_last_user_sensor))
  ∧ (∀ managers self,
       is_Some (_current_log self) →
       is_Some (_current_log (handle_updates managers self)))
  ∧ (∀ log_manager self,
       Forall (λ e, get_timestamp e ≤ _last_processed_timestamp self)
              (latest_logs log_manager) →
       fst (_handle_log_update log_manager self) = self).
Proof.
  assert (∀ managers self,
            tracker_inv self → tracker_inv (handle_updates managers self))
    as Hpres.
  { intros managers. induction managers as [|m ms IH]; intros self Hinv; cbn.
    - done.
    - apply IH. by apply handle_log_update_inv. }
  split; [|split; [|split; [|split]]].
  - intros managers. induction managers as [|m ms IH]; intros self; cbn.
    + lia.
    + etrans; [apply (handle_log_update_mono m)|]. apply IH.
  - exact Hpres.
  - intros managers. apply Hpres. intros log. discriminate.
  - intros managers. induction managers as [|m ms IH]; intros self Hs; cbn.
    + done.
    + apply IH. by apply handle_log_update_keeps_entry.
  - apply handle_log_update_stale.
Qed.

Lemma tracker_monotonic_and_sticky_witness :
  fst (_handle_log_update
         {| _mac := "AA:BB"; _latest_logs := out_of_order_logs;
            _listeners := [] |}
         {| _last_processed_timestamp := 100; _current_log := None |})
  = {| _last_processed_timestamp := 100; _current_log := None |}.
Proof.
  apply (proj2 (proj2 (proj2 (proj2 tracker_monotonic_and_sticky)))).
  repeat constructor; cbn; lia.
Defined.

(** ** Fetching *)

Section ManagerFacts.
Context `{SwitchbotConst}.



End ManagerFacts.


(** ** Acceptance and user identity *)

Section TrackerFacts.
Context `{SwitchbotConst}.

Lemma handle_log_update_accepts log_manager self e :
  _get_newest_valid_log log_manager self = Some e →
  _handle_log_update log_manager self
  = ({| _last_processed_timestamp := get_timestamp e;
        _current_log := Some e |},
     user_name e).
Proof. intros Hnew. unfold _handle_log_update. by rewrite Hnew. Qed.

Lemma anonymous_batch_enriched user_store mac :
  ∃ e, _enrich_logs user_store mac anonymous_batch = Ok [e]
       ∧ raw e = raw_log 100 "AABBCCDDEEFF" 1 1
       ∧ user_id e = None.
Proof.
  destruct (enrich_logs_ok user_store mac anonymous_batch)
    as (out & Hout & Hall).
  unfold anonymous_batch in Hall.
  apply Forall2_cons_inv_l in Hall as (e & out' & He & Hnil & ->).
  apply Forall2_nil_inv_l in Hnil as ->.
  exists e. split; [done|].
  destruct (enrich_log_ok (async_get_users user_store mac)
              (raw_log 100 "AABBCCDDEEFF" 1 1))
    as (e' & He' & Hraw & Hid & _).
  assert (e' = e) as -> by congruence. split; [done|].
  assert (Ok None = Ok (user_id e)) as [= <-]; [|done].
  rewrite <- Hid. reflexivity.
Qed.

(** C10: an entry that the selection accepts and that carries no user id
    becomes the current entry, the high-water mark moves to its timestamp,
    and the published last-user value is absent; a fetched batch for which
    this happens exists: its payload is valid for the sensor and has no
    user prefix. *)
Theorem acceptance_ignores_user_identity :
  (∀ user_store mac logs enriched listeners self e,
     _enrich_logs user_store mac logs = Ok enriched →
     _get_newest_valid_log
       {| _mac := mac; _latest_logs := enriched; _listeners := listeners |}
       self = Some e →
     user_id e = None →
     _handle_log_update
       {| _mac := mac; _latest_logs := enriched; _listeners := listeners |}
       self
     = ({| _last_processed_timestamp := get_timestamp e;
           _current_log := Some e |},
        None))
  ∧ (∀ user_store,
       ∃ e,
         returned (async_fetch_logs anonymous_device user_store 0 10
                     (new_log_manager "AA:BB")) = Ok [e]
         ∧ user_id e = None
         ∧ _is_valid_payload (get_payload e) = true
         ∧ has_user_prefix (get_payload e) = false
         ∧ _handle_log_update
             (manager_after
                (async_fetch_logs anonymous_device user_store 0 10
                   (new_log_manager "AA:BB")))
             new_last_user_sensor
           = ({| _last_processed_timestamp := 100; _current_log := Some e |},
              None)).
Proof.
  assert (∀ user_store mac logs enriched listeners self e,
     _enrich_logs user_store mac logs = Ok enriched →
     _get_newest_valid_log
       {| _mac := mac; _latest_logs := enriched; _listeners := listeners |}
       self = Some e →
     user_id e = None →
     _handle_log_update
       {| _mac := mac; _latest_logs := enriched; _listeners := listeners |}
       self
     = ({| _last_processed_timestamp := get_timestamp e;
           _current_log := Some e |},
        None)) as Hgen.
  { intros user_store mac logs enriched listeners self e Henr Hnew Hid.
    rewrite (handle_log_update_accepts _ _ _ Hnew). f_equal.
    apply newest_valid_loop_Some in Hnew as (before & after & Heq & _).
    cbn in Heq.
    rewrite (enrich_logs_user_name _ _ _ _ Henr e), Hid; [done|].
    rewrite Heq. set_solver. }
  split; [exact Hgen|].
  intros user_store.
  destruct (anonymous_batch_enriched user_store "AA:BB")
    as (e & Henr & Hraw & Hid).
  exists e.
  assert (async_fetch_logs anonymous_device user_store 0 10
            (new_log_manager "AA:BB")
          = {| manager_after := {| _mac := "AA:BB"; _latest_logs := [e];
                                   _listeners := [] |};
               notified := [];
               returned := Ok [e] |}) as ->.
  { unfold async_fetch_logs, anonymous_device, no_logs, anonymous_batch.
    change (default [] (Some ?l)) with l.
    unfold anonymous_batch in Henr. cbn [new_log_manager _mac].
    by rewrite Henr. }
  assert (get_payload e = "AABBCCDDEEFF") as Hp
    by (unfold get_payload; by rewrite Hraw).
  assert (get_timestamp e = 100) as Ht
    by (unfold get_timestamp; by rewrite Hraw).
  split; [done|]. split; [done|].
  rewrite Hp. split; [reflexivity|]. split; [reflexivity|].
  cbn [manager_after]. rewrite <- Ht.
  apply (Hgen user_store "AA:BB" anonymous_batch [e] [] _ e Henr); [|done].
  unfold _get_newest_valid_log, latest_logs. cbn [_latest_logs].
  apply newest_valid_loop_Some. exists [], []. split; [done|].
  split; [|constructor].
  unfold acceptable. rewrite Ht, Hp. reflexivity.
Qed.

End TrackerFacts.

Lemma acceptance_ignores_user_identity_witness :
  let enriched :=
    [ {| raw := raw_log 100 "AABBCCDDEEFF" 1 1; user_id := None;
         user_name := None; source_display := "Ble App";
         action_name := "unlock" |} ] in
  ∃ e,
    _handle_log_update
      {| _mac := "AA:BB"; _latest_logs := enriched; _listeners := [] |}
      new_last_user_sensor
    = ({| _last_processed_timestamp := get_timestamp e;
          _current_log := Some e |},
       None).
Proof.
  intros enriched. eexists.
  apply (proj1 (acceptance_ignores_user_identity (H := sample_const))
           (new_user_store None) "AA:BB" anonymous_batch enriched []
           new_last_user_sensor).
  - vm_compute. reflexivity.
  - reflexivity.
  - reflexivity.
Defined.

(** ** The user-name table *)

Lemma lock_data_eta ld us :
  users ld = Some us → {| name := name ld; users := Some us |} = ld.
Proof. destruct ld as [n u]. cbn. by intros ->. Qed.

Lemma data_async_save self : _data (async_save self) = _data self.
Proof. reflexivity. Qed.

Lemma data_set_data d self : _data (set_data d self) = d.
Proof. reflexivity. Qed.

Lemma get_users_at mac self :
  async_get_users self mac
  = match _data self !! mac with
    | Some ld => default ∅ (users ld)
    | None => ∅
    end.
Proof.
  unfold async_get_users, async_get_lock_data.
  by destruct (_data self !! mac).
Qed.

Ltac store_simpl :=
  repeat first
    [ rewrite data_async_save
    | rewrite data_set_data
    | rewrite lookup_insert_eq
    | progress (cbn [fst snd users name default_lock_data
                     default from_option id]) ].

(** What [async_set_user] does to the table of the lock, when it returns. *)
Lemma set_user_get_users mac uid new_name self :
  snd (async_set_user mac uid new_name self) = Ok tt →
  async_get_users (fst (async_set_user mac uid new_name self)) mac
  = <[Py.str uid := new_name]> (async_get_users self mac).
Proof.
  rewrite !get_users_at. unfold async_set_user.
  destruct (_data self !! mac) as [ld|] eqn:Hmac; store_simpl.
  - rewrite Hmac. destruct (users ld) as [us|] eqn:Hus; [|discriminate].
    intros _. by store_simpl.
  - intros _. by store_simpl.
Qed.

Lemma set_user_unknown_lock mac uid new_name self :
  _data self !! mac = None →
  snd (async_set_user mac uid new_name self) = Ok tt
  ∧ async_get_users (fst (async_set_user mac uid new_name self)) mac
    = {[Py.str uid := new_name]}.
Proof.
  intros Hmac.
  assert (snd (async_set_user mac uid new_name self) = Ok tt) as Hok.
  { unfold async_set_user. rewrite Hmac. by store_simpl. }
  split; [done|]. rewrite set_user_get_users by done.
  by rewrite get_users_at, Hmac.
Qed.

(** [async_delete_user] always returns, and removes the one key. *)
Lemma delete_user_get_users mac uid self :
  snd (async_delete_user mac uid self) = Ok tt
  ∧ async_get_users (fst (async_delete_user mac uid self)) mac
    = delete (Py.str uid) (async_get_users self mac).
Proof.
  rewrite !get_users_at. unfold async_delete_user.
  destruct (_data self !! mac) as [ld|] eqn:Hmac.
  - destruct (users ld) as [us|] eqn:Hus; store_simpl; (split; [done|]).
    + done.
    + rewrite Hmac, Hus. store_simpl. by rewrite delete_empty.
  - store_simpl. split; [done|]. rewrite Hmac. by rewrite delete_empty.
Qed.

Lemma set_user_idempotent mac uid new_name self :
  fst (async_set_user mac uid new_name
         (fst (async_set_user mac uid new_name self)))
  = fst (async_set_user mac uid new_name self).
Proof.
  unfold async_set_user at 2 3.
  destruct (_data self !! mac) as [ld|] eqn:Hmac; store_simpl.
  - rewrite Hmac. destruct (users ld) as [us|] eqn:Hus; store_simpl.
    + unfold async_set_user. store_simpl.
      unfold async_save, set_data. cbn [_data _store].
      by rewrite !insert_insert_eq.
    + unfold async_set_user. by rewrite !Hmac, Hus.
  - unfold async_set_user. store_simpl.
    unfold async_save, set_data. cbn [_data _store].
    by rewrite !insert_insert_eq.
Qed.

Lemma delete_user_idempotent mac uid self :
  fst (async_delete_user mac uid (fst (async_delete_user mac uid self)))
  = fst (async_delete_user mac uid self).
Proof.
  unfold async_delete_user at 2 3.
  destruct (_data self !! mac) as [ld|] eqn:Hmac.
  - destruct (users ld) as [us|] eqn:Hus; store_simpl.
    + unfold async_delete_user. store_simpl.
      unfold async_save, set_data. cbn [_data _store].
      by rewrite !insert_insert_eq, delete_delete_eq.
    + unfold async_delete_user. by rewrite Hmac, Hus.
  - store_simpl. unfold async_delete_user. by rewrite Hmac.
Qed.

Lemma delete_absent_user mac uid self :
  async_get_users self mac !! Py.str uid = None →
  _data (fst (async_delete_user mac uid self)) = _data self.
Proof.
  rewrite get_users_at. unfold async_delete_user.
  destruct (_data self !! mac) as [ld|] eqn:Hmac; [|done].
  destruct (users ld) as [us|] eqn:Hus; [|done].
  store_simpl. intros Hnone. rewrite delete_id by done.
  rewrite (lock_data_eta _ _ Hus). by apply insert_id.
Qed.

(** C9: on a table that does not know the lock, [set_user(lock, 5, "Alice")]
    makes [get_users(lock)] return [{"5": "Alice"}], and [delete_user(lock,
    5)] then makes it return [{}]; in general a returning [set_user] inserts
    the name under the string form of the id and [delete_user] removes that
    key; either call repeated leaves the store as after the first call, and
    deleting a user that is not there changes no entry and does not raise. *)
Theorem user_store_round_trip_and_idempotence :
  (let s1 := fst (async_set_user "AA:BB" 5 "Alice"
                    (async_load (new_user_store None))) in
   let s2 := fst (async_delete_user "AA:BB" 5 s1) in
   async_get_users s1 "AA:BB" = {["5" := "Alice"]}
   ∧ async_get_users s2 "AA:BB" = ∅)
  ∧ (∀ mac uid new_name self,
       _data self !! mac = None →
       let s1 := fst (async_set_user mac uid new_name self) in
       let s2 := fst (async_delete_user mac uid s1) in
       snd (async_set_user mac uid new_name self) = Ok tt
       ∧ async_get_users s1 mac = {[Py.str uid := new_name]}
       ∧ async_get_users s2 mac = ∅)
  ∧ (∀ mac uid new_name self,
       snd (async_set_user mac uid new_name self) = Ok tt →
       async_get_users (fst (async_set_user mac uid new_name self)) mac
       = <[Py.str uid := new_name]> (async_get_users self mac))
  ∧ (∀ mac uid self,
       snd (async_delete_user mac uid self) = Ok tt
       ∧ async_get_users (fst (async_delete_user mac uid self)) mac
         = delete (Py.str uid) (async_get_users self mac))
  ∧ (∀ mac uid new_name self,
       fst (async_set_user mac uid new_name
              (fst (async_set_user mac uid new_name self)))
       = fst (async_set_user mac uid new_name self))
  ∧ (∀ mac uid self,
       fst (async_delete_user mac uid (fst (async_delete_user mac uid self)))
       = fst (async_delete_user mac uid self))
  ∧ (∀ mac uid self,
       async_get_users self mac !! Py.str uid = None →
       _data (fst (async_delete_user mac uid self)) = _data self).
Proof.
  assert (∀ mac uid new_name self,
       _data self !! mac = None →
       let s1 := fst (async_set_user mac uid new_name self) in
       let s2 := fst (async_delete_user mac uid s1) in
       snd (async_set_user mac uid new_name self) = Ok tt
       ∧ async_get_users s1 mac = {[Py.str uid := new_name]}
       ∧ async_get_users s2 mac = ∅) as Hround.
  { intros mac uid new_name self Hmac s1 s2.
    destruct (set_user_unknown_lock mac uid new_name self Hmac) as [Hok Hs1].
    split; [done|]. split; [done|]. subst s2.
    rewrite (proj2 (delete_user_get_users mac uid s1)). subst s1.
    rewrite Hs1. apply delete_singleton_eq. }
  split; [|split; [exact Hround|]].
  - specialize (Hround "AA:BB" 5 "Alice" (async_load (new_user_store None))
                  eq_refl).
    cbn zeta in *. destruct Hround as (_ & H1 & H2). by split.
  - split; [apply set_user_get_users|].
    split; [apply delete_user_get_users|].
    split; [apply set_user_idempotent|].
    split; [apply delete_user_idempotent|apply delete_absent_user].
Qed.

Lemma user_store_round_trip_and_idempotence_witness :
  let self := async_load (new_user_store None) in
  snd (async_set_user "AA:BB" 5 "Alice" self) = Ok tt
  ∧ async_get_users (fst (async_set_user "AA:BB" 5 "Alice" self)) "AA:BB"
    = {["5" := "Alice"]}
  ∧ async_get_users
      (fst (async_delete_user "AA:BB" 5
              (fst (async_set_user "AA:BB" 5 "Alice" self)))) "AA:BB"
    = ∅.
Proof.
  intros self.
  apply (proj1 (proj2 user_store_round_trip_and_idempotence)
           "AA:BB" 5 "Alice" self).
  reflexivity.
Defined.

(** ** The cached batch and its copies *)

Lemma list_copy_fresh l h : snd (list_copy l h) ∉ dom (lists h).
Proof. unfold list_copy. cbn [snd]. apply is_fresh. Qed.

Lemma list_copy_other l h l' :
  l' ∈ dom (lists h) →
  l' ≠ snd (list_copy l h)
  ∧ lists (fst (list_copy l h)) !! l' = lists h !! l'.
Proof.
  intros Hin. pose proof (list_copy_fresh l h) as Hfresh.
  assert (l' ≠ snd (list_copy l h)) as Hne by (intros ->; done).
  split; [done|]. unfold list_copy in *. cbn [fst snd lists] in *.
  by rewrite lookup_insert_ne.
Qed.

Lemma list_copy_items l h items :
  lists h !! l = Some items →
  lists (fst (list_copy l h)) !! snd (list_copy l h) = Some items
  ∧ dicts (fst (list_copy l h)) = dicts h.
Proof.
  intros Hl. unfold list_copy. cbn [fst snd lists dicts].
  by rewrite lookup_insert_eq, Hl.
Qed.

Lemma mutate_other l op h l' :
  l' ≠ l →
  lists (mutate l op h) !! l' = lists h !! l'
  ∧ dicts (mutate l op h) = dicts h.
Proof.
  intros Hne. unfold mutate.
  destruct (lists h !! l) as [items|]; [|done].
  destruct (op items); [|done].
  cbn [lists dicts]. by rewrite lookup_insert_ne.
Qed.

Lemma write_entry_lists l i write h : lists (write_entry l i write h) = lists h.
Proof. unfold write_entry. by destruct (lists h !! l ≫= (.!! i)). Qed.

(** Whatever is done through another list object, this one keeps its
    items. *)
Lemma perform_all_other l actions l' : ∀ h,
  l' ≠ l → lists (perform_all l actions h) !! l' = lists h !! l'.
Proof.
  induction actions as [|action actions IH]; intros h Hne; [done|].
  change (perform_all l (action :: actions) h)
    with (perform_all l actions (perform l action h)).
  rewrite IH by done. destruct action as [op|i write]; cbn [perform].
  - by apply mutate_other.
  - by rewrite write_entry_lists.
Qed.

(** Actions on the list alone leave every dictionary as it was. *)
Lemma perform_all_dicts l actions : ∀ h,
  Forall on_list_only actions → dicts (perform_all l actions h) = dicts h.
Proof.
  induction actions as [|action actions IH]; intros h Hall; [done|].
  apply Forall_cons in Hall as [Hlist Hall].
  change (perform_all l (action :: actions) h)
    with (perform_all l actions (perform l action h)).
  rewrite IH by done. destruct action as [op|i write]; [|done].
  cbn [perform]. unfold mutate.
  destruct (lists h !! l) as [items|]; [|done]. by destruct (op items).
Qed.

Lemma read_list_ext h h' l l' :
  lists h' !! l' = lists h !! l → dicts h' = dicts h →
  read_list h' l' = read_list h l.
Proof. unfold read_list. by intros -> ->. Qed.

Lemma represents_allocated h self m :
  represents h self m → latest_logs_ref self ∈ dom (lists h).
Proof.
  unfold represents, read_list. intros Hr. apply elem_of_dom.
  destruct (lists h !! latest_logs_ref self); [by eexists|discriminate].
Qed.

Lemma represents_items h self m :
  represents h self m →
  ∃ items,
    lists h !! latest_logs_ref self = Some items
    ∧ Forall2 (λ r e, dicts h !! r = Some e) items (_latest_logs m).
Proof.
  unfold represents, read_list. intros Hr.
  destruct (lists h !! latest_logs_ref self) as [items|]; [|discriminate].
  exists items. split; [done|]. by apply mapM_Some_1.
Qed.

(** A write into the dictionary [r] shows in every list that holds [r]. *)
Lemma read_after_write h items logs r e write i :
  Forall2 (λ r e, dicts h !! r = Some e) items logs →
  items !! i = Some r → dicts h !! r = Some e →
  ∃ logs',
    mapM (λ r', alter write r (dicts h) !! r') items = Some logs'
    ∧ logs' !! i = Some (write e)
    ∧ length logs' = length logs.
Proof.
  intros Hall Hi Hr.
  assert (is_Some (mapM (λ r', alter write r (dicts h) !! r') items))
    as [logs' Hlogs'].
  { apply mapM_is_Some, Forall_forall. intros x (j & Hj)%list_elem_of_lookup.
    destruct (Forall2_lookup_l _ _ _ _ _ Hall Hj) as (y & _ & Hy).
    cbn. destruct (decide (x = r)) as [->|Hne].
    - rewrite lookup_alter_eq, Hy. by eexists.
    - rewrite lookup_alter_ne by done. by eexists. }
  exists logs'. split; [done|]. apply mapM_Some_1 in Hlogs'.
  split.
  - destruct (Forall2_lookup_l _ _ _ _ _ Hlogs' Hi) as (y & Hy & Hw).
    rewrite lookup_alter_eq, Hr in Hw. cbn in Hw. congruence.
  - apply Forall2_length in Hall, Hlogs'. congruence.
Qed.

Lemma newest_first_head e rest :
  newest_first (e :: rest) → is_newest e (e :: rest).
Proof.
  intros Hsorted. split; [left|].
  intros e' (j & Hj)%list_elem_of_lookup.
  apply (Hsorted 0%nat j e e'); [lia|done..].
Qed.

(** C7, as stated, fails twice. [latest_log] of the cache a fetch leaves is
    not the newest entry when the device lists an older event first. And a
    caller of [latest_logs] who writes into an entry of the list it got
    alters the cache: the manager no longer shows the batch it held. *)
Lemma latest_log_not_newest_and_entries_shared :
  ¬ (∀ (lock_device : LockDevice) user_store self e,
       latest_log
         (manager_after
            (async_fetch_logs (H := sample_const) lock_device user_store
               0 10 self)) = Some e →
       is_newest e
         (_latest_logs
            (manager_after
               (async_fetch_logs (H := sample_const) lock_device user_store
                  0 10 self))))
  ∧ (let h1 := fst (latest_logs_obj sample_manager_obj sample_heap) in
     let copy := snd (latest_logs_obj sample_manager_obj sample_heap) in
     represents sample_heap sample_manager_obj sample_manager
     ∧ ¬ represents (write_entry copy 0 (set_user_name "Alice") h1)
           sample_manager_obj sample_manager).
Proof.
  split.
  - intros Hc.
    destruct (Hc out_of_order_device (new_user_store None)
                (new_log_manager "AA:BB") _ eq_refl) as [_ Hmax].
    assert (100 ≤ 90); [|lia].
    refine (Hmax {| raw := raw_log 100 "590307000000" 1 1;
                    user_id := Some 7; user_name := None;
                    source_display := "Ble App";
                    action_name := "unlock" |} _).
    apply list_elem_of_lookup. by exists 1%nat.
  - split; [reflexivity|].
    unfold represents. intros Hr. vm_compute in Hr. discriminate Hr.
Qed.

(** C7 (amended): [latest_log] returns an entry of the cached batch, and
    nothing exactly when the cache is empty; the entry is the newest one
    whenever the batch is ordered newest first. [latest_logs] returns a new
    list object that holds the cached entries themselves. Whatever a caller
    then does with that list, the cached list keeps its items, in order; as
    long as the caller changes the list only (adding, removing, replacing
    or reordering items), the manager still shows the same batch. The
    entries are shared: a write into entry [i] of the returned list shows
    in entry [i] of the cache. *)
Theorem latest_log_and_latest_logs_copy :
  (∀ self, latest_log self = None ↔ _latest_logs self = [])
  ∧ (∀ self e, latest_log self = Some e → e ∈ _latest_logs self)
  ∧ (∀ self e,
       latest_log self = Some e →
       newest_first (_latest_logs self) →
       is_newest e (_latest_logs self))
  ∧ (∀ h self m actions,
       represents h self m →
       let h1 := fst (latest_logs_obj self h) in
       let copy := snd (latest_logs_obj self h) in
       let h2 := perform_all copy actions h1 in
       copy ≠ latest_logs_ref self
       ∧ read_list h1 copy = Some (latest_logs m)
       ∧ lists h1 !! copy = lists h !! latest_logs_ref self
       ∧ represents h1 self m
       ∧ lists h2 !! latest_logs_ref self = lists h !! latest_logs_ref self
       ∧ (Forall on_list_only actions → represents h2 self m))
  ∧ (∀ h self m i e write,
       represents h self m →
       _latest_logs m !! i = Some e →
       let h1 := fst (latest_logs_obj self h) in
       let copy := snd (latest_logs_obj self h) in
       ∃ logs',
         read_list (write_entry copy i write h1) (latest_logs_ref self)
         = Some logs'
         ∧ logs' !! i = Some (write e)
         ∧ length logs' = length (_latest_logs m)).
Proof.
  split; [|split; [|split; [|split]]].
  - intros self. unfold latest_log. by destruct (_latest_logs self).
  - intros self e. unfold latest_log.
    destruct (_latest_logs self) as [|first rest]; [done|].
    intros [= ->]. left.
  - intros self e. unfold latest_log.
    destruct (_latest_logs self) as [|first rest]; [done|].
    intros [= ->]. apply newest_first_head.
  - intros h self m actions Hrep h1 copy h2.
    pose proof (represents_allocated _ _ _ Hrep) as Hin.
    destruct (list_copy_other (latest_logs_ref self) h _ Hin) as [Hne Hsame].
    fold (latest_logs_obj self h) in Hne, Hsame. fold copy in Hne.
    fold h1 in Hsame.
    assert (is_Some (lists h !! latest_logs_ref self)) as [items Hitems]
      by by apply elem_of_dom.
    destruct (list_copy_items _ _ _ Hitems) as [Hcopy Hdicts].
    fold (latest_logs_obj self h) in Hcopy, Hdicts.
    fold copy h1 in Hcopy. fold h1 in Hdicts.
    pose proof (perform_all_other copy actions (latest_logs_ref self) h1 Hne)
      as Hl. fold h2 in Hl.
    split; [done|]. split; [|split; [|split; [|split]]].
    + unfold latest_logs. rewrite <- Hrep. apply read_list_ext; [|done].
      by rewrite Hcopy, Hitems.
    + by rewrite Hcopy, Hitems.
    + unfold represents. rewrite <- Hrep. by apply read_list_ext.
    + by rewrite Hl, Hsame.
    + intros Hlist. unfold represents. rewrite <- Hrep. apply read_list_ext.
      * by rewrite Hl, Hsame.
      * unfold h2. by rewrite perform_all_dicts, Hdicts.
  - intros h self m i e write Hrep Hi h1 copy.
    pose proof (represents_allocated _ _ _ Hrep) as Hin.
    destruct (list_copy_other (latest_logs_ref self) h _ Hin) as [Hne Hsame].
    fold (latest_logs_obj self h) in Hne, Hsame. fold copy in Hne.
    fold h1 in Hsame.
    destruct (represents_items _ _ _ Hrep) as (items & Hitems & Hall).
    destruct (list_copy_items _ _ _ Hitems) as [Hcopy Hdicts].
    fold (latest_logs_obj self h) in Hcopy, Hdicts.
    fold copy h1 in Hcopy. fold h1 in Hdicts.
    destruct (Forall2_lookup_r _ _ _ _ _ Hall Hi) as (r & Hr & He).
    destruct (read_after_write h items _ r e write i Hall Hr He)
      as (logs' & Hread & Hshown & Hlen).
    exists logs'. split; [|done].
    unfold read_list, write_entry. rewrite Hcopy. cbn [mbind option_bind].
    rewrite Hr. cbn [lists dicts]. rewrite Hsame, Hitems, Hdicts.
    exact Hread.
Qed.

Lemma latest_log_and_latest_logs_copy_witness :
  let h1 := fst (latest_logs_obj sample_manager_obj sample_heap) in
  let copy := snd (latest_logs_obj sample_manager_obj sample_heap) in
  let h2 :=
    perform_all copy
      [OnList Clear; OnEntry 0 (set_user_name "Alice");
       OnList (Append 11%positive)] h1 in
  copy ≠ latest_logs_ref sample_manager_obj
  ∧ read_list h1 copy = Some (latest_logs sample_manager)
  ∧ lists h1 !! copy = lists sample_heap !! latest_logs_ref sample_manager_obj
  ∧ represents h1 sample_manager_obj sample_manager
  ∧ lists h2 !! latest_logs_ref sample_manager_obj
    = lists sample_heap !! latest_logs_ref sample_manager_obj
  ∧ (Forall on_list_only
       [OnList Clear; OnEntry 0 (set_user_name "Alice");
        OnList (Append 11%positive)] →
     represents h2 sample_manager_obj sample_manager).
Proof.
  apply (proj1 (proj2 (proj2 (proj2 latest_log_and_latest_logs_copy)))
           sample_heap sample_manager_obj sample_manager
           [OnList Clear; OnEntry 0 (set_user_name "Alice");
            OnList (Append 11%positive)]).
  reflexivity.
Defined.

(** ** The model on concrete inputs *)

Example int16_examples :
  Py.int16 "05" = Ok 5 ∧ Py.int16 "fF" = Ok 255 ∧ Py.int16 "-5" = Ok (-5)
  ∧ Py.int16 " 5" = Ok 5 ∧ Py.int16 "0x" = Raise ValueError
  ∧ Py.int16 "5_" = Raise ValueError ∧ Py.int16 "zz" = Raise ValueError.
Proof. repeat split; reflexivity. Qed.

Example extract_user_id_examples :
  _extract_user_id "590305000000" = Ok (Some 5)
  ∧ _extract_user_id "5901ff000000" = Ok (Some 255)
  ∧ _extract_user_id "590300000000" = Ok None
  ∧ _extract_user_id "5903zz000000" = Ok None
  ∧ _extract_user_id "5903-5000000" = Ok None
  ∧ _extract_user_id "5903+5000000" = Ok (Some 5)
  ∧ _extract_user_id "5902050000" = Ok None
  ∧ _extract_user_id "59030" = Ok None
  ∧ _extract_user_id "" = Ok None.
Proof. repeat split; reflexivity. Qed.

Example enrich_logs_example :
  _enrich_logs (H := sample_const)
    (fst (async_set_user "AA:BB" 5 "Alice" (new_user_store None))) "AA:BB"
    [ raw_log 100 "590305000000" 1 1;
      raw_log 90 "590102000000" 9 7;
      {| timestamp := Some 80; source := None; action := None;
         payload := None |} ]
  = Ok [ {| raw := raw_log 100 "590305000000" 1 1; user_id := Some 5;
            user_name := Some "Alice"; source_display := "Ble App";
            action_name := "unlock" |};
         {| raw := raw_log 90 "590102000000" 9 7; user_id := Some 2;
            user_name := None; source_display := "Unknown (Source 9)";
            action_name := "unknown_7" |};
         {| raw := {| timestamp := Some 80; source := None; action := None;
                      payload := None |};
            user_id := None; user_name := None;
            source_display := "Unknown (Source ?)";
            action_name := "unknown_?" |} ].
Proof. vm_compute. reflexivity. Qed.

Example fetch_then_update_example :
  let outcome :=
    async_fetch_logs (H := sample_const) out_of_order_device
      (new_user_store None) 0 10
      (async_add_listener 1%nat (new_log_manager "AA:BB")) in
  notified outcome = [1%nat]
  ∧ (get_timestamp <$> latest_log (manager_after outcome)) = Some 90
  ∧ _last_processed_timestamp
      (fst (_handle_log_update (manager_after outcome) new_last_user_sensor))
    = 90.
Proof. vm_compute. repeat split; reflexivity. Qed.

Example fetch_unreachable_example :
  let self := {| _mac := "AA:BB"; _latest_logs := out_of_order_logs;
                 _listeners := [1%nat] |} in
  async_fetch_logs (H := sample_const) unreachable_device
    (new_user_store None) 0 10 self
  = {| manager_after := self; notified := [];
       returned := Raise DeviceError |}.
Proof. reflexivity. Qed.

(** * Further properties *)

(** ** The user-name table: names, other locks, persistence *)

Lemma get_lock_name_at mac self :
  async_get_lock_name self mac
  = match _data self !! mac with
    | Some ld => name ld
    | None => None
    end.
Proof.
  unfold async_get_lock_name, async_get_lock_data.
  by destruct (_data self !! mac).
Qed.

Lemma set_lock_name_data mac new_name self :
  _data (async_set_lock_name mac new_name self)
  = <[mac := {| name := Some new_name;
                users := match _data self !! mac with
                         | Some ld => users ld
                         | None => Some ∅
                         end |}]> (_data self).
Proof.
  unfold async_set_lock_name. by destruct (_data self !! mac).
Qed.

Lemma set_user_data mac uid new_name self :
  snd (async_set_user mac uid new_name self) = Ok tt →
  ∃ n us,
    _data (fst (async_set_user mac uid new_name self))
    = <[mac := {| name := n;
                  users := Some (<[Py.str uid := new_name]> us) |}]>
        (_data self)
    ∧ async_get_lock_name self mac = n
    ∧ async_get_users self mac = us.
Proof.
  rewrite get_lock_name_at, get_users_at. unfold async_set_user.
  destruct (_data self !! mac) as [ld|] eqn:Hmac; store_simpl.
  - rewrite Hmac. destruct (users ld) as [us|] eqn:Hus; [|discriminate].
    intros _. exists (name ld), us. by store_simpl.
  - intros _. exists None, ∅. store_simpl. by rewrite insert_insert_eq.
Qed.

Lemma delete_user_data mac uid self :
  _data (fst (async_delete_user mac uid self)) = _data self
  ∨ ∃ ld us,
      _data self !! mac = Some ld ∧ users ld = Some us
      ∧ _data (fst (async_delete_user mac uid self))
        = <[mac := {| name := name ld;
                      users := Some (delete (Py.str uid) us) |}]> (_data self).
Proof.
  unfold async_delete_user.
  destruct (_data self !! mac) as [ld|] eqn:Hmac; [|by left].
  destruct (users ld) as [us|] eqn:Hus; [|by left].
  right. exists ld, us. by store_simpl.
Qed.

(** X1: a lock's name and its user table are independent. Setting the name
    makes [get_lock_name] return it and leaves the lock's users as they
    were; a returning [set_user] and any [delete_user] leave the name. *)
Theorem lock_name_round_trip_and_independence :
  (∀ mac new_name self,
     async_get_lock_name (async_set_lock_name mac new_name self) mac
     = Some new_name
     ∧ async_get_users (async_set_lock_name mac new_name self) mac
       = async_get_users self mac)
  ∧ (∀ mac uid new_name self,
       snd (async_set_user mac uid new_name self) = Ok tt →
       async_get_lock_name (fst (async_set_user mac uid new_name self)) mac
       = async_get_lock_name self mac)
  ∧ (∀ mac uid self,
       async_get_lock_name (fst (async_delete_user mac uid self)) mac
       = async_get_lock_name self mac).
Proof.
  split; [|split].
  - intros mac new_name self.
    rewrite get_lock_name_at, !get_users_at, set_lock_name_data.
    rewrite lookup_insert_eq. split; [done|]. cbn [users].
    by destruct (_data self !! mac).
  - intros mac uid new_name self Hok.
    destruct (set_user_data _ _ _ _ Hok) as (n & us & Hd & Hn & _).
    rewrite (get_lock_name_at mac (fst _)), Hd, lookup_insert_eq. by cbn.
  - intros mac uid self. rewrite !get_lock_name_at.
    destruct (delete_user_data mac uid self)
      as [->|(ld & us & Hmac & Hus & ->)]; [done|].
    by rewrite lookup_insert_eq, Hmac.
Qed.

Lemma lock_name_round_trip_and_independence_witness :
  async_get_lock_name
    (fst (async_set_user "AA:BB" 5 "Alice"
            (async_set_lock_name "AA:BB" "Front door" (new_user_store None))))
    "AA:BB"
  = async_get_lock_name
      (async_set_lock_name "AA:BB" "Front door" (new_user_store None)) "AA:BB".
Proof.
  apply (proj1 (proj2 lock_name_round_trip_and_independence)).
  reflexivity.
Defined.

(** X2: what is done to one lock leaves every other lock's entry alone. *)
Theorem other_locks_untouched mac mac' uid new_name self :
  mac' ≠ mac →
  _data (fst (async_set_user mac uid new_name self)) !! mac'
  = _data self !! mac'
  ∧ _data (fst (async_delete_user mac uid self)) !! mac' = _data self !! mac'
  ∧ _data (async_set_lock_name mac new_name self) !! mac' = _data self !! mac'.
Proof.
  intros Hne. split; [|split].
  - unfold async_set_user.
    destruct (_data self !! mac) as [ld|] eqn:Hmac; store_simpl.
    + rewrite Hmac. destruct (users ld); store_simpl; [|done].
      by rewrite lookup_insert_ne.
    + by rewrite !lookup_insert_ne.
  - destruct (delete_user_data mac uid self)
      as [->|(ld & us & _ & _ & ->)]; [done|].
    by rewrite lookup_insert_ne.
  - rewrite set_lock_name_data. by rewrite lookup_insert_ne.
Qed.

Lemma other_locks_untouched_witness :
  async_get_users
    (fst (async_set_user "CC:DD" 7 "Bob"
            (fst (async_set_user "AA:BB" 5 "Alice" (new_user_store None)))))
    "AA:BB"
  = {["5" := "Alice"]}.
Proof.
  rewrite get_users_at.
  rewrite (proj1 (other_locks_untouched "CC:DD" "AA:BB" 7 "Bob"
                    (fst (async_set_user "AA:BB" 5 "Alice"
                            (new_user_store None)))
                    ltac:(discriminate))).
  reflexivity.
Defined.

Lemma restart_data self : saved self → _data (restart self) = _data self.
Proof. unfold saved, restart, async_load. cbn. by intros ->. Qed.

(** X3: every change is on disk when the call returns. After [set_lock_name]
    and after a returning [set_user] the saved document is the table, and
    [delete_user] keeps them equal; a store restarted from a saved document
    has the same table. *)
Theorem changes_are_persisted :
  (∀ mac new_name self, saved (async_set_lock_name mac new_name self))
  ∧ (∀ mac uid new_name self,
       snd (async_set_user mac uid new_name self) = Ok tt →
       saved (fst (async_set_user mac uid new_name self)))
  ∧ (∀ mac uid self,
       saved self → saved (fst (async_delete_user mac uid self)))
  ∧ (∀ self, saved self → _data (restart self) = _data self).
Proof.
  split; [|split; [|split]].
  - intros mac new_name self. unfold async_set_lock_name.
    by destruct (_data self !! mac).
  - intros mac uid new_name self. unfold async_set_user.
    destruct (_data self !! mac) as [ld|] eqn:Hmac; store_simpl.
    + rewrite Hmac. by destruct (users ld).
    + done.
  - intros mac uid self Hs. unfold async_delete_user.
    destruct (_data self !! mac) as [ld|]; [|done].
    by destruct (users ld).
  - apply restart_data.
Qed.

Lemma changes_are_persisted_witness :
  _data (restart (fst (async_set_user "AA:BB" 5 "Alice" (new_user_store None))))
  = _data (fst (async_set_user "AA:BB" 5 "Alice" (new_user_store None))).
Proof.
  apply (proj2 (proj2 (proj2 changes_are_persisted))).
  apply (proj1 (proj2 changes_are_persisted)). reflexivity.
Defined.

(** X4: an entry without a ["users"] key, which only a stored document can
    bring in, cannot take users: [set_user] raises [KeyError] and changes
    nothing, also after [set_lock_name], while [delete_user] returns without
    a change and [get_users] shows no users. *)
Theorem entry_without_users_key mac uid new_name lock_name self ld :
  _data self !! mac = Some ld → users ld = None →
  async_set_user mac uid new_name self = (self, Raise KeyError)
  ∧ async_delete_user mac uid self = (self, Ok tt)
  ∧ async_get_users self mac = ∅
  ∧ snd (async_set_user mac uid new_name
           (async_set_lock_name mac lock_name self)) = Raise KeyError.
Proof.
  intros Hmac Hus.
  assert (∀ s l, _data s !! mac = Some l → users l = None →
                 async_set_user mac uid new_name s = (s, Raise KeyError))
    as Hraise.
  { intros s l Hs Hl. unfold async_set_user. by rewrite !Hs, Hl. }
  split; [by eapply Hraise|]. split; [|split].
  - unfold async_delete_user. by rewrite Hmac, Hus.
  - by rewrite get_users_at, Hmac, Hus.
  - erewrite Hraise; [done|..].
    + rewrite set_lock_name_data. apply lookup_insert_eq.
    + cbn [users]. by rewrite Hmac.
Qed.

Lemma entry_without_users_key_witness :
  let self := async_load (new_user_store
                (Some {["AA:BB" := {| name := Some "Door"; users := None |}]}))
  in async_set_user "AA:BB" 5 "Alice" self = (self, Raise KeyError).
Proof.
  intros self.
  apply (proj1 (entry_without_users_key "AA:BB" 5 "Alice" "Door" self
                  {| name := Some "Door"; users := None |}
                  eq_refl eq_refl)).
Defined.

(** X5: on a table whose entries all have a ["users"] key, [set_user] never
    raises, and [set_user], [delete_user] and [set_lock_name] keep the table
    that way; a new store, loaded with nothing stored, is such a table. *)
Theorem users_key_everywhere_is_kept :
  has_users_everywhere (async_load (new_user_store None))
  ∧ (∀ mac uid new_name self,
       has_users_everywhere self →
       snd (async_set_user mac uid new_name self) = Ok tt
       ∧ has_users_everywhere (fst (async_set_user mac uid new_name self)))
  ∧ (∀ mac uid self,
       has_users_everywhere self →
       has_users_everywhere (fst (async_delete_user mac uid self)))
  ∧ (∀ mac new_name self,
       has_users_everywhere self →
       has_users_everywhere (async_set_lock_name mac new_name self)).
Proof.
  split; [|split; [|split]].
  - intros mac ld. cbn. by rewrite lookup_empty.
  - intros mac uid new_name self Hwf.
    assert (snd (async_set_user mac uid new_name self) = Ok tt) as Hok.
    { unfold async_set_user.
      destruct (_data self !! mac) as [ld|] eqn:Hmac; store_simpl; [|done].
      rewrite Hmac. by destruct (Hwf _ _ Hmac) as [us ->]. }
    split; [done|].
    destruct (set_user_data _ _ _ _ Hok) as (n & us & Hd & _).
    intros mac' ld'. rewrite Hd.
    destruct (decide (mac' = mac)) as [->|Hne].
    + rewrite lookup_insert_eq. intros [= <-]. by eexists.
    + rewrite lookup_insert_ne by done. apply Hwf.
  - intros mac uid self Hwf mac' ld'.
    destruct (delete_user_data mac uid self)
      as [->|(ld & us & _ & _ & ->)]; [apply Hwf|].
    destruct (decide (mac' = mac)) as [->|Hne].
    + rewrite lookup_insert_eq. intros [= <-]. by eexists.
    + rewrite lookup_insert_ne by done. apply Hwf.
  - intros mac new_name self Hwf mac' ld'. rewrite set_lock_name_data.
    destruct (decide (mac' = mac)) as [->|Hne].
    + rewrite lookup_insert_eq. intros [= <-]. cbn.
      destruct (_data self !! mac) as [ld|] eqn:Hmac; [|by eexists].
      by apply (Hwf mac).
    + rewrite lookup_insert_ne by done. apply Hwf.
Qed.

Lemma users_key_everywhere_is_kept_witness :
  snd (async_set_user "AA:BB" 5 "Alice" (async_load (new_user_store None)))
  = Ok tt.
Proof.
  apply (proj1 (proj2 users_key_everywhere_is_kept)).
  apply (proj1 users_key_everywhere_is_kept).
Defined.

(** ** From the table to the enriched records *)

Section NamesInEnrichment.
Context `{SwitchbotConst}.

(** X6: a name set for a user id is the name every later enrichment gives
    to the records of that id, records of other ids get the name they had
    before, and after [delete_user] the records of the id have no name. *)
Theorem enrichment_follows_the_table user_store mac uid new_name logs :
  (snd (async_set_user mac uid new_name user_store) = Ok tt →
   ∃ enriched,
     _enrich_logs (fst (async_set_user mac uid new_name user_store)) mac logs
     = Ok enriched
     ∧ ∀ e, e ∈ enriched →
         (user_id e = Some uid → user_name e = Some new_name)
         ∧ (∀ other, user_id e = Some other → other ≠ uid →
              user_name e = async_get_users user_store mac !! Py.str other))
  ∧ (∃ enriched,
       _enrich_logs (fst (async_delete_user mac uid user_store)) mac logs
       = Ok enriched
       ∧ ∀ e, e ∈ enriched → user_id e = Some uid → user_name e = None).
Proof.
  split.
  - intros Hok.
    destruct (enrich_logs_ok (fst (async_set_user mac uid new_name user_store))
                mac logs) as (enriched & Henr & _).
    exists enriched. split; [done|]. intros e He.
    rewrite (enrich_logs_user_name _ _ _ _ Henr e He).
    rewrite set_user_get_users by done. split.
    + intros ->. cbn. apply lookup_insert_eq.
    + intros other -> Hne. cbn. apply lookup_insert_ne.
      intros Heq. apply Hne. symmetry. by apply (inj pretty).
  - destruct (enrich_logs_ok (fst (async_delete_user mac uid user_store))
                mac logs) as (enriched & Henr & _).
    exists enriched. split; [done|]. intros e He Hid.
    rewrite (enrich_logs_user_name _ _ _ _ Henr e He), Hid.
    rewrite (proj2 (delete_user_get_users mac uid user_store)). cbn.
    apply lookup_delete_eq.
Qed.

End NamesInEnrichment.

Lemma enrichment_follows_the_table_witness :
  ∃ enriched,
    _enrich_logs (H := sample_const)
      (fst (async_set_user "AA:BB" 5 "Alice" (new_user_store None))) "AA:BB"
      [raw_log 100 "590305000000" 1 1]
    = Ok enriched
    ∧ ∀ e, e ∈ enriched →
        (user_id e = Some 5 → user_name e = Some "Alice")
        ∧ (∀ other, user_id e = Some other → other ≠ 5 →
             user_name e
             = async_get_users (new_user_store None) "AA:BB" !! Py.str other).
Proof.
  apply (proj1 (enrichment_follows_the_table (H := sample_const)
                  (new_user_store None) "AA:BB" 5 "Alice"
                  [raw_log 100 "590305000000" 1 1])).
  reflexivity.
Defined.

(** ** What an extracted user id tells *)

Lemma in_all_ascii c : In c all_ascii.
Proof.
  unfold all_ascii. apply list_elem_of_In, list_elem_of_fmap.
  exists (nat_of_ascii c). split; [by rewrite ascii_nat_embedding|].
  apply elem_of_seq. pose proof (nat_ascii_bounded c). lia.
Qed.

Lemma int16_two_chars_bound c1 c2 v :
  Py.int16 (String c1 (String c2 "")) = Ok v → v ≤ 255.
Proof.
  assert (two_char_bound_check = true) as Hall by (vm_compute; reflexivity).
  unfold two_char_bound_check in Hall.
  rewrite forallb_forall in Hall. specialize (Hall c1 (in_all_ascii c1)).
  rewrite forallb_forall in Hall. specialize (Hall c2 (in_all_ascii c2)).
  intros Hv. rewrite Hv in Hall. lia.
Qed.

(** X7: when [_extract_user_id] finds a user id, the id is between 1 and
    255, the payload starts with byte [0x59] and byte [0x01] or [0x03], and
    the last-user sensor accepts the payload as valid. *)
Theorem extracted_user_id_facts payload uid :
  _extract_user_id payload = Ok (Some uid) →
  1 ≤ uid ≤ 255
  ∧ has_user_prefix payload = true
  ∧ _is_valid_payload payload = true.
Proof.
  intros Hx.
  assert (has_user_prefix payload = true) as Hp.
  { destruct (has_user_prefix payload) eqn:Hp; [done|].
    rewrite (extract_user_id_without_prefix _ Hp) in Hx. discriminate. }
  unfold _extract_user_id in Hx.
  destruct (negb (Py.truthy payload) || (Py.len payload <? 6)) eqn:Hg;
    [discriminate|].
  split; [|split; [done|]].
  - destruct (payload_six_chars _ Hg)
      as (c0 & c1 & c2 & c3 & c4 & c5 & rest & ->).
    rewrite <- user_prefix_textual, Hp in Hx.
    unfold Py.slice in Hx. cbn [substring Nat.sub] in Hx.
    rewrite substring_0_0, result_bind_unfold in Hx.
    destruct (Py.int16 (String c4 (String c5 ""))) as [v|e] eqn:Hv.
    + apply int16_two_chars_bound in Hv. cbn in Hx.
      destruct (Z.gtb_spec v 0); simplify_eq. lia.
    + apply int16_raises_only_ValueError in Hv as ->. discriminate.
  - unfold _is_valid_payload. rewrite Hg.
    destruct (String.eqb_spec payload "000000000000") as [->|]; [|done].
    discriminate.
Qed.

Lemma extracted_user_id_facts_witness :
  1 ≤ 255 ≤ 255
  ∧ has_user_prefix "5901ff000000" = true
  ∧ _is_valid_payload "5901ff000000" = true.
Proof. apply (extracted_user_id_facts "5901ff000000" 255). reflexivity. Defined.

(** ** Listeners *)

Lemma remove_first_app_fresh x l :
  x ∉ l → remove_first x (l ++ [x]) = l.
Proof.
  induction l as [|y l IH]; intros Hx; cbn.
  - by rewrite decide_True.
  - apply not_elem_of_cons in Hx as [Hne Hx].
    rewrite decide_False by done. by rewrite IH.
Qed.

Lemma remove_first_length x l :
  x ∈ l → S (length (remove_first x l)) = length l.
Proof.
  induction l as [|y l IH]; intros Hx; cbn.
  - by apply elem_of_nil in Hx.
  - destruct (decide (y = x)) as [->|Hne]; [done|]. cbn.
    apply elem_of_cons in Hx as [->|Hx]; [done|]. by rewrite IH.
Qed.

Lemma remove_first_others x l :
  filter (λ y, y ≠ x) (remove_first x l) = filter (λ y, y ≠ x) l.
Proof.
  induction l as [|y l IH]; [done|]. cbn [remove_first].
  destruct (decide (y = x)) as [->|Hne].
  - rewrite filter_cons_False; [done|]. intros Hn. by apply Hn.
  - rewrite !filter_cons_True by done. by rewrite IH.
Qed.

(** X8: unsubscribing. The closure returned by [async_add_listener] undoes
    the registration of a listener that was not registered before; called
    for a listener that is not registered it changes nothing, so calling it
    twice is harmless; it removes one registration only, keeps the other
    listeners in their order, and never touches the cache. *)
Theorem remove_listener_undoes_one_registration :
  (∀ listener self,
     listener ∉ _listeners self →
     remove_listener listener (async_add_listener listener self) = self
     ∧ remove_listener listener self = self)
  ∧ (∀ listener self,
       listener ∈ _listeners self →
       S (length (_listeners (remove_listener listener self)))
       = length (_listeners self))
  ∧ (∀ listener self,
       filter (λ y, y ≠ listener) (_listeners (remove_listener listener self))
       = filter (λ y, y ≠ listener) (_listeners self)
       ∧ _latest_logs (remove_listener listener self) = _latest_logs self
       ∧ _mac (remove_listener listener self) = _mac self).
Proof.
  split; [|split].
  - intros listener self Hnot. split.
    + unfold remove_listener, async_add_listener. cbn [_listeners].
      rewrite decide_True by set_solver. cbn.
      rewrite remove_first_app_fresh by done. by destruct self.
    + unfold remove_listener. by rewrite decide_False.
  - intros listener self Hin. unfold remove_listener.
    rewrite decide_True by done. cbn. by apply remove_first_length.
  - intros listener self. unfold remove_listener.
    destruct (decide (listener ∈ _listeners self)); [|done].
    cbn. split; [apply remove_first_others|done].
Qed.

Lemma remove_listener_undoes_one_registration_witness :
  remove_listener 2%nat
    (async_add_listener 2%nat
       (async_add_listener 1%nat (new_log_manager "AA:BB")))
  = async_add_listener 1%nat (new_log_manager "AA:BB").
Proof.
  refine (proj1 (proj1 remove_listener_undoes_one_registration 2%nat
                   (async_add_listener 1%nat (new_log_manager "AA:BB")) _)).
  cbn. intros Hin%list_elem_of_singleton. discriminate.
Defined.

(** ** A fetch that brings records *)

Section FetchSuccess.
Context `{SwitchbotConst} {World : Type}.
Context (call_listener :
           SwitchBotLockLogManager → Listener → World → World * result unit).





End FetchSuccess.

(** The manager of the first part is the one whose listeners all return. *)
Lemma async_fetch_logs_returning_listeners `{SwitchbotConst}
    (lock_device : LockDevice) user_store base_time max_entries self :
  Callbacks.async_fetch_logs returning_listeners lock_device user_store
    base_time max_entries self tt
  = (async_fetch_logs lock_device user_store base_time max_entries self, tt).
Proof.
  assert (∀ m listeners,
            Callbacks.notify_loop returning_listeners m listeners tt
            = (tt, listeners, Ok tt)) as Hloop.
  { intros m. induction listeners as [|l rest IH]; [done|].
    cbn [Callbacks.notify_loop returning_listeners]. by rewrite IH. }
  unfold Callbacks.async_fetch_logs, async_fetch_logs,
    Callbacks._notify_listeners, _notify_listeners.
  destruct (lock_device base_time max_entries) as [logs|e]; [|done].
  destruct (no_logs logs); [done|].
  destruct (_enrich_logs _ _ _) as [enriched|e]; [|done].
  by rewrite Hloop.
Qed.


(** ** What the last-user sensor shows *)

Lemma acceptable_facts last log :
  acceptable last log = true →
  last < get_timestamp log ∧ _is_valid_payload (get_payload log) = true.
Proof.
  unfold acceptable. rewrite <- is_valid_payload_spec.
  intros [Hl Hv]%andb_prop. split; [lia|done].
Qed.

Lemma reachable_state_inv self :
  reachable self →
  0 ≤ _last_processed_timestamp self
  ∧ match _current_log self with
    | None => _last_processed_timestamp self = 0
    | Some log =>
        timestamp (raw log) = Some (_last_processed_timestamp self)
        ∧ 0 < _last_processed_timestamp self
        ∧ _is_valid_payload (get_payload log) = true
    end.
Proof.
  intros Hr.
  induction Hr as [|log_manager self Hr [Hpos IH]]; [by cbn|].
  destruct (handle_log_update_cases log_manager self)
    as [[_ ->]|(log & _ & Hacc & ->)]; [done|].
  apply acceptable_facts in Hacc as [Hlt Hvalid].
  cbn [_last_processed_timestamp _current_log].
  unfold get_timestamp in *.
  destruct (timestamp (raw log)) as [t|]; cbn in *; [|lia].
  repeat split; (done || lia).
Qed.

(** X10: in every state the sensor reaches from a new one, either nothing
    has been accepted and the high-water mark is 0, or the current entry has
    a timestamp key whose value is the high-water mark, that value is
    positive, and the entry's payload is valid. *)
Theorem reachable_tracker_state self :
  reachable self →
  match _current_log self with
  | None => _last_processed_timestamp self = 0
  | Some log =>
      timestamp (raw log) = Some (_last_processed_timestamp self)
      ∧ 0 < _last_processed_timestamp self
      ∧ _is_valid_payload (get_payload log) = true
  end.
Proof. intros Hr. by destruct (reachable_state_inv self Hr). Qed.

Lemma reachable_tracker_state_witness :
  match _current_log
          (fst (_handle_log_update
                  {| _mac := "AA:BB"; _latest_logs := out_of_order_logs;
                     _listeners := [] |} new_last_user_sensor)) with
  | None => False
  | Some log => timestamp (raw log) = Some 90
  end.
Proof.
  pose proof (reachable_tracker_state _
                (reachable_update
                   {| _mac := "AA:BB"; _latest_logs := out_of_order_logs;
                      _listeners := [] |} _ reachable_new)) as Hs.
  cbn in Hs. cbn. apply Hs.
Defined.

(** X11: the attributes of the last-user sensor. There are none exactly
    when nothing has been accepted; the key ["user_id"] is there exactly
    when the current entry has a user id, and then holds it; and in every
    reachable state with a current entry the timestamp attribute is the
    high-water mark. *)
Theorem last_user_attributes_facts :
  (∀ self, last_user_attributes self = ∅ ↔ _current_log self = None)
  ∧ (∀ self log,
       _current_log self = Some log →
       last_user_attributes self !! "user_id" = AInt <$> user_id log
       ∧ last_user_attributes self !! "last_activity"
         = Some (AStr (source_display log))
       ∧ last_user_attributes self !! "last_activity_action"
         = Some (AStr (action_name log))
       ∧ last_user_attributes self !! "payload"
         = Some (attr_of_string (payload (raw log))))
  ∧ (∀ self,
       reachable self → is_Some (_current_log self) →
       last_user_attributes self !! "last_activity_timestamp"
       = Some (AInt (_last_processed_timestamp self))).
Proof.
  split; [|split].
  - intros self. unfold last_user_attributes.
    destruct (_current_log self) as [log|]; [|done]. cbn [log_truthy].
    split; [|discriminate]. intros Hempty. exfalso.
    assert (last_user_attributes
              {| _last_processed_timestamp := 0; _current_log := Some log |}
            !! "payload" = None) as Hp.
    { unfold last_user_attributes. cbn [_current_log log_truthy].
      by rewrite Hempty. }
    unfold last_user_attributes in Hp. cbn [_current_log log_truthy] in Hp.
    destruct (user_id log); simplify_map_eq.
  - intros self log Hlog. unfold last_user_attributes. rewrite Hlog.
    cbn [log_truthy]. destruct (user_id log); by simplify_map_eq.
  - intros self Hr [log Hlog].
    destruct (reachable_state_inv self Hr) as [_ Hs]. rewrite Hlog in Hs.
    destruct Hs as (Ht & _). unfold last_user_attributes. rewrite Hlog.
    cbn [log_truthy]. rewrite Ht. destruct (user_id log); by simplify_map_eq.
Qed.

Lemma last_user_attributes_facts_witness :
  last_user_attributes
    (fst (_handle_log_update
            {| _mac := "AA:BB"; _latest_logs := out_of_order_logs;
               _listeners := [] |} new_last_user_sensor))
  !! "last_activity_timestamp"
  = Some (AInt 90).
Proof.
  refine (proj2 (proj2 last_user_attributes_facts) _ _ _).
  - apply reachable_update, reachable_new.
  - by eexists.
Defined.

(** ** What the last-activity sensor shows *)

Section LastActivityFacts.
Context {datetime : Type} (fromtimestamp : Z → result datetime).

(** X12: the last-activity sensor reads the first cached record and nothing
    else. With an empty cache it has no value and no attributes; when that
    record has no timestamp key reading the value raises [KeyError];
    otherwise the value is the date of its timestamp; and the ["user_name"]
    attribute is ["Unknown"] both for a record without name and for one
    whose name is the empty string. *)
Theorem last_activity_sensor_reads_first_record :
  (∀ log_manager,
     _latest_logs log_manager = [] →
     last_activity_native_value fromtimestamp log_manager = Ok None
     ∧ last_activity_attributes log_manager = ∅)
  ∧ (∀ log_manager first rest,
       _latest_logs log_manager = first :: rest →
       (timestamp (raw first) = None →
        last_activity_native_value fromtimestamp log_manager = Raise KeyError)
       ∧ (∀ t, timestamp (raw first) = Some t →
            last_activity_native_value fromtimestamp log_manager
            = (d ← fromtimestamp t; Ok (Some d)))
       ∧ (user_name first = None ∨ user_name first = Some "" →
          last_activity_attributes log_manager !! "user_name"
          = Some (AStr "Unknown"))
       ∧ (∀ n, user_name first = Some n → n ≠ "" →
            last_activity_attributes log_manager !! "user_name"
            = Some (AStr n))
       ∧ last_activity_attributes log_manager !! "user_id"
         = Some (attr_of_int (user_id first))).
Proof.
  split.
  - intros log_manager Hempty.
    unfold last_activity_native_value, last_activity_attributes, latest_log.
    by rewrite Hempty.
  - intros log_manager first rest Hcache.
    unfold last_activity_native_value, last_activity_attributes, latest_log.
    rewrite Hcache. cbn [log_truthy]. split; [|split; [|split; [|split]]].
    + by intros ->.
    + by intros t ->.
    + intros [-> | ->]; by simplify_map_eq.
    + intros n -> Hn. simplify_map_eq. unfold or_unknown.
      by destruct n.
    + by simplify_map_eq.
Qed.

End LastActivityFacts.

Lemma last_activity_sensor_reads_first_record_witness :
  last_activity_native_value (λ t, Ok t)
    {| _mac := "AA:BB"; _latest_logs := [record_without_timestamp];
       _listeners := [] |}
  = Raise KeyError.
Proof.
  apply (proj1 (proj2 (last_activity_sensor_reads_first_record (λ t, Ok t))
                  {| _mac := "AA:BB";
                     _latest_logs := [record_without_timestamp];
                     _listeners := [] |}
                  record_without_timestamp [] eq_refl)).
  reflexivity.
Defined.

(** X13: when the first cached record is newer than the high-water mark and
    has a valid payload, an update makes it the current entry of the
    last-user sensor: both sensors then show the same record. *)
Theorem sensors_agree_on_acceptable_first_record log_manager self first :
  latest_log log_manager = Some first →
  get_timestamp first > _last_processed_timestamp self →
  _is_valid_payload (get_payload first) = true →
  _current_log (fst (_handle_log_update log_manager self)) = Some first.
Proof.
  intros Hfirst Hnew Hvalid. unfold latest_log in Hfirst.
  destruct (_latest_logs log_manager) as [|e rest] eqn:Hcache; simplify_eq.
  unfold _handle_log_update, _get_newest_valid_log, latest_logs.
  rewrite Hcache. cbn [newest_valid_loop]. rewrite Hvalid.
  assert ((get_timestamp first >? _last_processed_timestamp self) = true)
    as -> by lia.
  reflexivity.
Qed.

Lemma sensors_agree_on_acceptable_first_record_witness :
  _current_log
    (fst (_handle_log_update
            {| _mac := "AA:BB"; _latest_logs := out_of_order_logs;
               _listeners := [] |} new_last_user_sensor))
  = latest_log {| _mac := "AA:BB"; _latest_logs := out_of_order_logs;
                  _listeners := [] |}.
Proof.
  apply (sensors_agree_on_acceptable_first_record
           {| _mac := "AA:BB"; _latest_logs := out_of_order_logs;
              _listeners := [] |} new_last_user_sensor).
  - reflexivity.
  - reflexivity.
  - reflexivity.
Defined.

(** ** Unique ids *)

Lemma list_of_append s t :
  list_ascii_of_string (s +:+ t)
  = (list_ascii_of_string s ++ list_ascii_of_string t)%list.
Proof.
  induction s as [|c s IH]; [done|].
  change (c :: list_ascii_of_string (s +:+ t)
          = c :: (list_ascii_of_string s ++ list_ascii_of_string t))%list.
  by rewrite IH.
Qed.

Lemma append_inj_l s1 s2 t : s1 +:+ t = s2 +:+ t → s1 = s2.
Proof.
  intros Heq%(f_equal list_ascii_of_string).
  rewrite !list_of_append in Heq. apply app_inv_tail in Heq.
  rewrite <- (string_of_list_ascii_of_string s1),
          <- (string_of_list_ascii_of_string s2).
  by rewrite Heq.
Qed.

(** X14: the unique ids of the sensors never collide: two locks with
    different addresses get different ids for the same kind of sensor, and
    a last-activity id is never a last-user id. *)
Theorem sensor_unique_ids_distinct :
  (∀ mac1 mac2,
     last_activity_unique_id mac1 = last_activity_unique_id mac2 → mac1 = mac2)
  ∧ (∀ mac1 mac2,
       last_user_unique_id mac1 = last_user_unique_id mac2 → mac1 = mac2)
  ∧ (∀ mac1 mac2, last_activity_unique_id mac1 ≠ last_user_unique_id mac2).
Proof.
  split; [|split].
  - intros mac1 mac2. apply append_inj_l.
  - intros mac1 mac2. apply append_inj_l.
  - intros mac1 mac2 Heq%(f_equal list_ascii_of_string).
    unfold last_activity_unique_id, last_user_unique_id in Heq.
    rewrite !list_of_append in Heq. apply (f_equal last) in Heq.
    rewrite !last_app in Heq. cbn in Heq. discriminate.
Qed.

(** ** The manager registry *)

Lemma find_log_manager_loop_Some entries device_id items key log_manager :
  find_log_manager_loop entries device_id items = Some (key, log_manager) ↔
  ∃ before after,
    items = (before ++ (key, log_manager) :: after)%list
    ∧ (∃ entry, entries !! key = Some entry
                ∧ data entry !! CONF_DEVICE_ID = Some device_id)
    ∧ Forall (λ item, not_for_device entries device_id item.1) before.
Proof.
  induction items as [|[k m] rest IH]; cbn [find_log_manager_loop].
  - split; [discriminate|]. intros ([|??] & ? & ? & _); discriminate.
  - destruct (entries !! k) as [entry|] eqn:Hk.
    + destruct (decide (data entry !! CONF_DEVICE_ID = Some device_id))
        as [Hd|Hd].
      * split.
        -- intros [= <- <-]. exists [], rest. repeat split; [|done].
           by exists entry.
        -- intros ([|[k' m'] before] & after & Heq & _ & Hnone);
             simplify_eq/=; [done|].
           apply Forall_cons in Hnone as [Hno _]. by destruct (Hno entry).
      * rewrite IH. split.
        -- intros (before & after & -> & He & Hnone).
           exists ((k, m) :: before), after. repeat split; [done|].
           constructor; [|done]. intros entry'. cbn. by intros; simplify_eq.
        -- intros ([|[k' m'] before] & after & Heq & He & Hnone);
             simplify_eq/=.
           ++ destruct He as (entry' & ? & ?). by simplify_eq.
           ++ apply Forall_cons in Hnone as [_ ?]. by exists before, after.
    + rewrite IH. split.
      * intros (before & after & -> & He & Hnone).
        exists ((k, m) :: before), after. repeat split; [done|].
        constructor; [|done]. intros entry'. cbn. by rewrite Hk.
      * intros ([|[k' m'] before] & after & Heq & He & Hnone);
          simplify_eq/=.
        -- destruct He as (entry' & ? & ?). by simplify_eq.
        -- apply Forall_cons in Hnone as [_ ?]. by exists before, after.
Qed.

Lemma find_log_manager_loop_None entries device_id items :
  find_log_manager_loop entries device_id items = None ↔
  Forall (λ item, not_for_device entries device_id item.1) items.
Proof.
  induction items as [|[k m] rest IH]; cbn [find_log_manager_loop].
  - split; [constructor|done].
  - destruct (entries !! k) as [entry|] eqn:Hk.
    + destruct (decide (data entry !! CONF_DEVICE_ID = Some device_id))
        as [Hd|Hd].
      * split; [discriminate|]. intros [Hno _]%Forall_cons.
        by destruct (Hno entry).
      * rewrite IH. split.
        -- intros Hrest. constructor; [|done]. intros entry'. cbn.
           by intros; simplify_eq.
        -- by intros [_ ?]%Forall_cons.
    + rewrite IH. split.
      * intros Hrest. constructor; [|done]. intros entry'. cbn.
        by rewrite Hk.
      * by intros [_ ?]%Forall_cons.
Qed.

Lemma dict_pop_keys {V} key (d : list (string * V)) :
  NoDup d.*1 →
  (key ∉ (dict_pop key d).*1) ∧ NoDup (dict_pop key d).*1
  ∧ ∀ item, item ∈ dict_pop key d → item ∈ d.
Proof.
  induction d as [|[k v] rest IH]; cbn [dict_pop].
  - intros _. split; [apply not_elem_of_nil|]. split; [constructor|done].
  - rewrite fmap_cons. intros [Hk Hrest]%NoDup_cons.
    destruct (IH Hrest) as (Hnot & Hnodup & Hsub).
    destruct (decide (k = key)) as [->|Hne].
    + split; [done|]. split; [done|]. intros item Hi. by right.
    + rewrite fmap_cons. split; [|split].
      * cbn. apply not_elem_of_cons. by split.
      * apply NoDup_cons. split; [|done]. cbn. cbn in Hk.
        intros (item & -> & Hin%Hsub)%list_elem_of_fmap.
        apply Hk, list_elem_of_fmap. by exists item.
      * intros item [->|Hin]%elem_of_cons; [by left|]. right. by apply Hsub.
Qed.

Lemma dict_set_keys {V} key (value : V) (d : list (string * V)) :
  NoDup d.*1 → NoDup (dict_set key value d).*1
  ∧ (key, value) ∈ dict_set key value d
  ∧ ∀ k v, (k, v) ∈ dict_set key value d → k ≠ key → (k, v) ∈ d.
Proof.
  induction d as [|[k v] rest IH]; cbn [dict_set].
  - intros _. split; [|split].
    + cbn. apply NoDup_singleton.
    + by left.
    + intros k v Hin%list_elem_of_singleton Hne. by simplify_eq.
  - rewrite fmap_cons. intros [Hk Hrest]%NoDup_cons.
    destruct (IH Hrest) as (Hnodup & Hin & Hsub).
    destruct (decide (k = key)) as [->|Hne].
    + split; [|split].
      * rewrite fmap_cons. by apply NoDup_cons.
      * by left.
      * intros k' v' [Heq|Hin']%elem_of_cons Hne'; [by simplify_eq|].
        by right.
    + split; [|split].
      * rewrite fmap_cons. apply NoDup_cons. split; [|done]. cbn. cbn in Hk.
        intros ([k' v'] & Hk' & Hin')%list_elem_of_fmap. cbn in Hk'. subst k'.
        apply Hk, list_elem_of_fmap. exists (k, v'). split; [done|].
        by apply Hsub.
      * by right.
      * intros k' v' [Heq|Hin']%elem_of_cons Hne'; [simplify_eq; by left|].
        right. by apply Hsub.
Qed.

(** X15: looking a manager up by device. The lookup returns a manager that
    is registered under a config entry of that device, the first such in
    the order of registration, and returns nothing exactly when no
    registered key resolves to an entry of the device. Once an entry is
    unloaded no lookup returns anything registered under its key, and the
    keys of the registry stay distinct under registering and unloading. *)
Theorem manager_lookup_by_device :
  (∀ hass device_id log_manager,
     _find_log_manager_for_device hass device_id = Some log_manager →
     ∃ key entry,
       (key, log_manager) ∈ log_managers hass
       ∧ config_entries hass !! key = Some entry
       ∧ data entry !! CONF_DEVICE_ID = Some device_id)
  ∧ (∀ hass device_id,
       _find_log_manager_for_device hass device_id = None ↔
       Forall (λ item, not_for_device (config_entries hass) device_id item.1)
              (log_managers hass))
  ∧ (∀ hass entry device_id key log_manager,
       NoDup (log_managers hass).*1 →
       find_log_manager_loop (config_entries hass) device_id
         (log_managers (unregister_log_manager entry hass))
       = Some (key, log_manager) →
       key ≠ entry_id entry)
  ∧ (∀ hass entry log_manager,
       NoDup (log_managers hass).*1 →
       NoDup (log_managers (register_log_manager entry log_manager hass)).*1
       ∧ NoDup (log_managers (unregister_log_manager entry hass)).*1).
Proof.
  split; [|split; [|split]].
  - intros hass device_id log_manager. unfold _find_log_manager_for_device.
    destruct (find_log_manager_loop _ _ _) as [[key m]|] eqn:Hfind;
      [|discriminate].
    intros [= <-].
    apply find_log_manager_loop_Some in Hfind
      as (before & after & Heq & (entry & He & Hd) & _).
    exists key, entry. rewrite Heq. split; [set_solver|done].
  - intros hass device_id. unfold _find_log_manager_for_device.
    rewrite <- find_log_manager_loop_None.
    by destruct (find_log_manager_loop _ _ _).
  - intros hass entry device_id key log_manager Hnodup
      (before & after & Heq & _)%find_log_manager_loop_Some ->.
    destruct (dict_pop_keys (entry_id entry) (log_managers hass) Hnodup)
      as (Hnot & _).
    apply Hnot. cbn [unregister_log_manager log_managers] in Heq.
    rewrite Heq, fmap_app, fmap_cons. set_solver.
  - intros hass entry log_manager Hnodup. split.
    + by apply dict_set_keys.
    + by apply dict_pop_keys.
Qed.

Lemma manager_lookup_by_device_witness :
  ∃ key entry,
    (key, new_log_manager "AA:BB") ∈ log_managers sample_hass
    ∧ config_entries sample_hass !! key = Some entry
    ∧ data entry !! CONF_DEVICE_ID = Some "device-1".
Proof.
  apply (proj1 manager_lookup_by_device sample_hass "device-1").
  reflexivity.
Defined.

(** ** The services *)



Section LogsServiceFacts.
Context `{SwitchbotConst} {World : Type}.
Context (call_listener :
           SwitchBotLockLogManager → Listener → World → World * result unit).
Context (lock_devices : string → LockDevice).


End LogsServiceFacts.

Section ServiceFacts.
Context `{SwitchbotConst} (lock_devices : string → LockDevice).

Lemma set_lock_user_name_known call hass hass1 :
  async_set_lock_user_name call hass = (hass1, Response tt) →
  ∃ log_manager,
    _find_log_manager_for_device hass (set_device_id call) = Some log_manager
    ∧ snd (async_set_user (_mac log_manager) (set_user_id call)
             (set_name call) (user_store hass)) = Ok tt
    ∧ hass1 = with_user_store
                (fst (async_set_user (_mac log_manager) (set_user_id call)
                        (set_name call) (user_store hass))) hass.
Proof.
  unfold async_set_lock_user_name.
  destruct (_find_log_manager_for_device hass (set_device_id call))
    as [log_manager|]; [|discriminate].
  destruct (async_set_user _ _ _ _) as [store [[]|e]] eqn:Hset;
    [|discriminate].
  intros [= <-]. exists log_manager. by rewrite Hset.
Qed.

Lemma delete_lock_user_name_known call hass hass1 :
  async_delete_lock_user_name call hass = (hass1, Response tt) →
  ∃ log_manager,
    _find_log_manager_for_device hass (delete_device_id call)
    = Some log_manager
    ∧ hass1 = with_user_store
                (fst (async_delete_user (_mac log_manager)
                        (delete_user_id call) (user_store hass))) hass.
Proof.
  unfold async_delete_lock_user_name.
  destruct (_find_log_manager_for_device hass (delete_device_id call))
    as [log_manager|]; [|discriminate].
  destruct (async_delete_user _ _ _) as [store [[]|e]] eqn:Hd;
    [|discriminate].
  intros [= <-]. exists log_manager. by rewrite Hd.
Qed.

(** The records a service response holds were enriched with the table of
    the manager that answered. *)
Lemma get_lock_logs_response call hass hass2 called logs log_manager :
  _find_log_manager_for_device hass (logs_device_id call) = Some log_manager →
  async_get_lock_logs lock_devices call hass = (hass2, called, Response logs) →
  ∀ e, e ∈ logs →
       user_name e
       = (user_id e ≫= λ uid,
            async_get_users (user_store hass) (_mac log_manager) !! Py.str uid).
Proof.
  unfold _find_log_manager_for_device, async_get_lock_logs.
  destruct (find_log_manager_loop _ _ _) as [[key m]|]; [|discriminate].
  intros [= ->]. cbn zeta. unfold async_fetch_logs.
  destruct (lock_devices key _ _) as [reply|e']; [|discriminate].
  destruct (no_logs reply).
  { intros [= _ _ <-] e He. by apply elem_of_nil in He. }
  destruct (_enrich_logs _ _ _) as [enriched|e'] eqn:Henr; [|discriminate].
  intros [= _ _ <-]. by apply (enrich_logs_user_name _ _ _ _ Henr).
Qed.

(** X17: from the name services to the log service. Once
    [set_lock_user_name] has returned for a device, every record in a later
    [get_lock_logs] response for that device that carries the user id
    carries the name; once [delete_lock_user_name] has returned, those
    records carry no name. *)
Theorem named_user_in_service_response logs_call hass1 hass2 called logs :
  (∀ set_call hass,
     async_set_lock_user_name set_call hass = (hass1, Response tt) →
     logs_device_id logs_call = set_device_id set_call →
     async_get_lock_logs lock_devices logs_call hass1
     = (hass2, called, Response logs) →
     ∀ e, e ∈ logs → user_id e = Some (set_user_id set_call) →
          user_name e = Some (set_name set_call))
  ∧ (∀ delete_call hass,
       async_delete_lock_user_name delete_call hass = (hass1, Response tt) →
       logs_device_id logs_call = delete_device_id delete_call →
       async_get_lock_logs lock_devices logs_call hass1
       = (hass2, called, Response logs) →
       ∀ e, e ∈ logs → user_id e = Some (delete_user_id delete_call) →
            user_name e = None).
Proof.
  split.
  - intros set_call hass (m & Hfind & Hok & ->)%set_lock_user_name_known
      Hdev Hlogs e He Hid.
    rewrite (get_lock_logs_response _ _ _ _ _ m) with (e := e) (2 := Hlogs);
      [|by rewrite Hdev|done].
    rewrite Hid. cbn [user_store with_user_store]. cbn.
    rewrite set_user_get_users by done. apply lookup_insert_eq.
  - intros delete_call hass (m & Hfind & ->)%delete_lock_user_name_known
      Hdev Hlogs e He Hid.
    rewrite (get_lock_logs_response _ _ _ _ _ m) with (e := e) (2 := Hlogs);
      [|by rewrite Hdev|done].
    rewrite Hid. cbn [user_store with_user_store]. cbn.
    rewrite (proj2 (delete_user_get_users _ _ _)). apply lookup_delete_eq.
Qed.

End ServiceFacts.

(** X18: the name services. For a device without a registered manager both
    fail with [device_not_configured] and change nothing. For a registered
    one they act on the table of that manager's address: after
    [set_lock_user_name] the table maps the id to the name, and
    [delete_lock_user_name] always returns and leaves the id unmapped.
    Neither service ever touches the registry or the config entries,
    whether the device has a manager or not. *)
Theorem name_services :
  (∀ call hass,
     _find_log_manager_for_device hass (set_device_id call) = None →
     async_set_lock_user_name call hass
     = (hass, Failed (ServiceValidationError "device_not_configured")))
  ∧ (∀ call hass,
       _find_log_manager_for_device hass (delete_device_id call) = None →
       async_delete_lock_user_name call hass
       = (hass, Failed (ServiceValidationError "device_not_configured")))
  ∧ (∀ call hass hass1 log_manager,
       _find_log_manager_for_device hass (set_device_id call)
       = Some log_manager →
       async_set_lock_user_name call hass = (hass1, Response tt) →
       async_get_users (user_store hass1) (_mac log_manager)
         !! Py.str (set_user_id call) = Some (set_name call))
  ∧ (∀ call hass log_manager,
       _find_log_manager_for_device hass (delete_device_id call)
       = Some log_manager →
       snd (async_delete_lock_user_name call hass) = Response tt
       ∧ async_get_users
           (user_store (fst (async_delete_lock_user_name call hass)))
           (_mac log_manager) !! Py.str (delete_user_id call) = None)
  ∧ (∀ call hass,
       log_managers (fst (async_set_lock_user_name call hass))
       = log_managers hass
       ∧ config_entries (fst (async_set_lock_user_name call hass))
         = config_entries hass)
  ∧ (∀ call hass,
       log_managers (fst (async_delete_lock_user_name call hass))
       = log_managers hass
       ∧ config_entries (fst (async_delete_lock_user_name call hass))
         = config_entries hass).
Proof.
  split; [|split; [|split; [|split; [|split]]]].
  - intros call hass Hnone. unfold async_set_lock_user_name. by rewrite Hnone.
  - intros call hass Hnone. unfold async_delete_lock_user_name.
    by rewrite Hnone.
  - intros call hass hass1 m Hfind
      (m' & Hfind' & Hok & ->)%set_lock_user_name_known.
    assert (m' = m) as -> by congruence. cbn [user_store with_user_store].
    rewrite set_user_get_users by done. apply lookup_insert_eq.
  - intros call hass m Hfind. unfold async_delete_lock_user_name.
    rewrite Hfind.
    destruct (delete_user_get_users (_mac m) (delete_user_id call)
                (user_store hass)) as [Hok Hget].
    destruct (async_delete_user _ _ _) as [store r]. cbn in Hok, Hget.
    subst r. cbn. rewrite Hget. split; [done|]. apply lookup_delete_eq.
  - intros call hass. unfold async_set_lock_user_name.
    destruct (_find_log_manager_for_device _ _); [|done].
    by destruct (async_set_user _ _ _ _).
  - intros call hass. unfold async_delete_lock_user_name.
    destruct (_find_log_manager_for_device _ _); [|done].
    by destruct (async_delete_user _ _ _).
Qed.


Lemma named_user_in_service_response_witness :
  Forall (λ e, user_id e = Some 5 → user_name e = Some "Alice")
         user_five_response.
Proof.
  apply Forall_forall. intros e He.
  pose (set_call := {| set_device_id := "device-1"; set_user_id := 5;
                       set_name := "Alice" |}).
  pose (logs_call := {| logs_device_id := "device-1";
                        logs_max_entries := None; logs_base_time := None |}).
  pose (hass1 := fst (async_set_lock_user_name set_call sample_hass)).
  pose (answer := async_get_lock_logs (H := sample_const)
                    (λ _, user_five_device) logs_call hass1).
  apply (proj1 (named_user_in_service_response (H := sample_const)
                  (λ _, user_five_device) logs_call hass1
                  answer.1.1 answer.1.2 user_five_response)
           set_call sample_hass); [reflexivity|reflexivity| |done].
  vm_compute. reflexivity.
Defined.

Lemma name_services_witness :
  async_get_users
    (user_store
       (fst (async_set_lock_user_name
               {| set_device_id := "device-1"; set_user_id := 5;
                  set_name := "Alice" |} sample_hass)))
    "AA:BB" !! Py.str 5
  = Some "Alice".
Proof.
  apply (proj1 (proj2 (proj2 name_services))
           {| set_device_id := "device-1"; set_user_id := 5;
              set_name := "Alice" |} sample_hass _
           (new_log_manager "AA:BB")).
  - reflexivity.
  - reflexivity.
Defined.

(** ** The delayed fetch *)

Section DelayedFetchFacts.
Context `{SwitchbotConst}.

(** X19: the delayed fetch. Cancelled while it sleeps or while it waits for
    the device, the task ends with [CancelledError], logs the cancellation
    and leaves the manager untouched with nobody notified. Not cancelled, it
    always finishes: an error of the device is logged as an error and
    nothing else happens. Cancellation and failure are logged differently,
    and the cache only ever changes when the device, asked with [base_time]
    0 and [max_entries] 10, has returned records. *)
Theorem delayed_fetch_outcomes sleep get_logs (lock_device : LockDevice)
    user_store log_manager :
  let r := _async_delayed_fetch_logs sleep get_logs lock_device user_store
             log_manager in
  (sleep = CancelledWhileWaiting ∨ get_logs = CancelledWhileWaiting →
   r = {| fetch_manager := log_manager; fetch_notified := [];
          fetch_end := CancelledError;
          fetch_logged := [LogFetchCancelled] |})
  ∧ (sleep = Resumed → get_logs = Resumed →
     fetch_end r = Finished
     ∧ ∀ e, lock_device 0 10 = Raise e →
            r = {| fetch_manager := log_manager; fetch_notified := [];
                   fetch_end := Finished;
                   fetch_logged := [ErrorFetchingLogs e] |})
  ∧ (_latest_logs (fetch_manager r) ≠ _latest_logs log_manager →
     sleep = Resumed ∧ get_logs = Resumed
     ∧ ∃ logs, lock_device 0 10 = Ok (Some logs) ∧ logs ≠ []).
Proof.
  cbn zeta. unfold _async_delayed_fetch_logs. split; [|split].
  - intros [-> | ->]; [done|]. by destruct sleep.
  - intros -> ->. split; [done|]. intros e He.
    unfold async_fetch_logs. by rewrite He.
  - destruct sleep; [|done]. destruct get_logs; [|done].
    cbn [fetch_manager]. unfold async_fetch_logs.
    destruct (lock_device 0 10) as [[[|log rest]|]|e]; cbn [no_logs]; try done.
    change (default [] (Some (log :: rest))) with (log :: rest).
    intros _. split; [done|]. split; [done|]. by exists (log :: rest).
Qed.

End DelayedFetchFacts.

Lemma delayed_fetch_outcomes_witness :
  _async_delayed_fetch_logs (H := sample_const) Resumed CancelledWhileWaiting
    out_of_order_device (new_user_store None) (new_log_manager "AA:BB")
  = {| fetch_manager := new_log_manager "AA:BB"; fetch_notified := [];
       fetch_end := CancelledError; fetch_logged := [LogFetchCancelled] |}.
Proof.
  apply (proj1 (delayed_fetch_outcomes (H := sample_const) Resumed
                  CancelledWhileWaiting out_of_order_device
                  (new_user_store None) (new_log_manager "AA:BB"))).
  by right.
Defined.

(** ** Debouncing *)

Lemma state_change_step old_state new_state schedule :
  debounced schedule →
  debounced (_async_on_lock_state_change old_state new_state schedule)
  ∧ length (tasks (_async_on_lock_state_change old_state new_state schedule))
    = ((if is_change (old_state, new_state) then 1 else 0)
       + length (tasks schedule))%nat.
Proof.
  intros [Hpending Htasks]. unfold _async_on_lock_state_change, is_change.
  destruct old_state as [old|], new_state as [new|]; try done.
  destruct (decide (state old ≠ state new)) as [Hne|Heq];
    [rewrite bool_decide_eq_true_2 by done
    |rewrite bool_decide_eq_false_2 by done; done].
  set (ts := match _pending_fetch_task schedule with
             | Some pending => cancel pending (tasks schedule)
             | None => tasks schedule
             end).
  assert (length ts = length (tasks schedule)) as Hlen.
  { subst ts. destruct (_pending_fetch_task schedule); [|done].
    unfold cancel. by rewrite length_alter. }
  assert (∀ (i : nat) t, ts !! i = Some t →
            delay t = LOG_FETCH_DELAY ∧ cancel_called t = true) as Hts.
  { intros i t Hi. subst ts. rewrite Hpending in Hi.
    destruct (tasks schedule) as [|t0 rest] eqn:Hsched.
    - by rewrite lookup_nil in Hi.
    - unfold cancel in Hi.
      destruct (decide (i = (length (t0 :: rest) - 1)%nat)) as [->|Hne'].
      + rewrite list_lookup_alter_eq in Hi.
        destruct ((t0 :: rest) !! _) as [t'|] eqn:Ht';
          cbn [fmap option_fmap option_map] in Hi; [|discriminate].
        injection Hi as <-. cbn [delay cancel_called].
        by destruct (Htasks _ _ Ht') as [-> _].
      + rewrite list_lookup_alter_ne in Hi by done.
        destruct (Htasks _ _ Hi) as [-> Hc]. split; [done|].
        apply Hc. apply lookup_lt_Some in Hi. cbn in *. lia. }
  unfold debounced. cbn [tasks _pending_fetch_task]. split; [split|].
  - destruct (ts ++ _)%list as [|t1 ts1] eqn:Happ.
    + by apply app_eq_nil in Happ as [_ ?].
    + rewrite <- Happ, length_app. cbn [length]. f_equal. lia.
  - intros i t Hi. rewrite length_app. cbn [length].
    destruct (decide (i < length ts)%nat) as [Hlt|Hge].
    + rewrite lookup_app_l in Hi by done.
      destruct (Hts _ _ Hi) as [-> ->]. split; [done|]. split; [lia|done].
    + rewrite lookup_app_r in Hi by lia.
      destruct (i - length ts)%nat as [|n] eqn:Hn; cbn in Hi; simplify_eq/=.
      split; [done|]. split; [done|lia].
  - rewrite length_app. cbn. lia.
Qed.

Lemma state_changes_run events : ∀ schedule,
  debounced schedule →
  debounced (on_lock_state_changes events schedule)
  ∧ length (tasks (on_lock_state_changes events schedule))
    = (length (filter (λ ev, is_change ev = true) events)
       + length (tasks schedule))%nat.
Proof.
  induction events as [|[old new] events IH]; intros schedule Hd; [done|].
  change (on_lock_state_changes ((old, new) :: events) schedule)
    with (on_lock_state_changes events
            (_async_on_lock_state_change old new schedule)).
  destruct (state_change_step old new schedule Hd) as [Hd' Hlen].
  destruct (IH _ Hd') as [Hd'' Hlen']. split; [done|].
  rewrite Hlen', Hlen.
  destruct (is_change (old, new)) eqn:Hc.
  - rewrite filter_cons_True by done. cbn. lia.
  - rewrite filter_cons_False by (by rewrite Hc). lia.
Qed.

(** X20: debouncing. After any sequence of state events the listener has
    made one task per event that reports a change between two different
    states, and none for an event without old or new state or with equal
    states; every task has the two-second delay; [cancel()] has been called
    on every task but the last one made, which is the pending one. *)
Theorem state_changes_are_debounced events :
  let schedule := on_lock_state_changes events new_fetch_schedule in
  length (tasks schedule) = length (filter (λ ev, is_change ev = true) events)
  ∧ _pending_fetch_task schedule
    = match tasks schedule with
      | [] => None
      | _ :: _ => Some (length (tasks schedule) - 1)%nat
      end
  ∧ ∀ (i : nat) t, tasks schedule !! i = Some t →
      delay t = LOG_FETCH_DELAY
      ∧ (cancel_called t = true ↔ (S i < length (tasks schedule))%nat).
Proof.
  cbn zeta.
  destruct (state_changes_run events new_fetch_schedule) as [[Hp Ht] Hlen].
  { split; [done|]. intros i t Hi. cbn in Hi. by rewrite lookup_nil in Hi. }
  split; [|done]. rewrite Hlen. cbn. lia.
Qed.

(** ** The lock entity of a device *)

(** X21: [_find_lock_entity_id] returns the id of the first registry entry
    of the device that is a lock of the SwitchBot platform, and nothing
    exactly when the device has no such entry. *)
Theorem find_lock_entity_first_switchbot_lock entries :
  (∀ id,
     _find_lock_entity_id entries = Some id ↔
     ∃ before entity after,
       entries = (before ++ entity :: after)%list
       ∧ id = entity_id entity
       ∧ entity_domain entity = "lock" ∧ platform entity = "switchbot"
       ∧ Forall (λ other, ¬ (entity_domain other = "lock"
                             ∧ platform other = "switchbot")) before)
  ∧ (_find_lock_entity_id entries = None ↔
     Forall (λ other, ¬ (entity_domain other = "lock"
                         ∧ platform other = "switchbot")) entries).
Proof.
  change SWITCHBOT_DOMAIN with "switchbot" in *.
  induction entries as [|entity rest [IHsome IHnone]];
    cbn [_find_lock_entity_id].
  - split; [|split; [constructor|done]].
    intros id. split; [discriminate|].
    intros ([|??] & ? & ? & ? & _); discriminate.
  - change SWITCHBOT_DOMAIN with "switchbot".
    destruct (decide (entity_domain entity = "lock"
                      ∧ platform entity = "switchbot")) as [[Hd Hp]|Hno].
    + split.
      * intros id. split.
        -- intros [= <-]. exists [], entity, rest. by repeat split.
        -- intros ([|other before] & entity' & after & Heq & -> & _ & _ & Hb);
             simplify_eq/=; [done|].
           apply Forall_cons in Hb as [Hb _]. by destruct Hb.
      * split; [discriminate|]. intros [Hb _]%Forall_cons. by destruct Hb.
    + split.
      * intros id. rewrite IHsome. split.
        -- intros (before & entity' & after & -> & -> & Hd & Hp & Hb).
           exists (entity :: before), entity', after.
           repeat split; [done..|]. by constructor.
        -- intros ([|other before] & entity' & after & Heq & -> & Hd & Hp & Hb);
             simplify_eq/=; [by destruct Hno|].
           apply Forall_cons in Hb as [_ Hb].
           by exists before, entity', after.
      * rewrite IHnone. split; [by constructor|].
        by intros [_ ?]%Forall_cons.
Qed.

(** ** The config flow *)

Lemma dict_get_Some {V} key (d : list (string * V)) value :
  dict_get key d = Some value → (key, value) ∈ d.
Proof.
  induction d as [|[k v] rest IH]; cbn [dict_get]; [discriminate|].
  destruct (decide (k = key)) as [->|Hne].
  - intros [= ->]. by left.
  - intros Hrest. right. by apply IH.
Qed.

Lemma dict_keys_functional {V} (d : list (string * V)) key v1 v2 :
  NoDup d.*1 → (key, v1) ∈ d → (key, v2) ∈ d → v1 = v2.
Proof.
  induction d as [|[k v] rest IH]; [by intros _ ?%elem_of_nil|].
  rewrite fmap_cons. intros [Hk Hrest]%NoDup_cons. cbn in Hk.
  intros [H1|H1]%elem_of_cons [H2|H2]%elem_of_cons.
  - congruence.
  - simplify_eq. destruct Hk. apply list_elem_of_fmap. by exists (k, v2).
  - simplify_eq. destruct Hk. apply list_elem_of_fmap. by exists (k, v1).
  - by apply IH.
Qed.

Lemma name_or_default_nonempty o : name_or_default o ≠ "".
Proof. unfold name_or_default. by destruct o as [[|c s]|]. Qed.

Section ConfigFlowFacts.
Context (CONNECTION_BLUETOOTH : string).

Lemma bluetooth_mac_Some conns mac_address :
  bluetooth_mac CONNECTION_BLUETOOTH conns = Some mac_address →
  (CONNECTION_BLUETOOTH, mac_address) ∈ conns.
Proof.
  induction conns as [|[kind value] rest IH]; cbn [bluetooth_mac];
    [discriminate|].
  destruct (decide ((kind, value).1 = CONNECTION_BLUETOOTH)) as [Hk|Hk].
  - cbn in Hk. intros [= <-]. subst kind. by left.
  - intros Hrest. right. by apply IH.
Qed.

Lemma config_entries_loop_offers entries existing_entries devices device :
  device ∈ devices →
  ∀ entry_ids available,
    entry_ids ⊆ dev_config_entries device →
    offers_only CONNECTION_BLUETOOTH entries existing_entries devices
      available →
    offers_only CONNECTION_BLUETOOTH entries existing_entries devices
      (config_entries_loop CONNECTION_BLUETOOTH entries existing_entries
         device entry_ids available).
Proof.
  intros Hdev entry_ids.
  induction entry_ids as [|entry_id rest IH]; intros available Hsub Hinv;
    cbn [config_entries_loop]; [done|].
  assert (rest ⊆ dev_config_entries device) as Hrest by set_solver.
  destruct (entries !! entry_id) as [entry|] eqn:Hentry; [|by apply IH].
  destruct (decide (domain entry = SWITCHBOT_DOMAIN)) as [Hdom|];
    [|by apply IH].
  cbn zeta.
  destruct (decide (default "" (data entry !! "sensor_type") ∈ LOCK_MODELS))
    as [Hmodel|]; [|done].
  destruct (bluetooth_mac CONNECTION_BLUETOOTH (connections device))
    as [mac_address|] eqn:Hmac; [|done].
  destruct (Py.truthy mac_address) eqn:Htruthy; [|done].
  destruct (already_configured existing_entries (dev_id device)) eqn:Hconf;
    [done|]. cbn [negb].
  destruct Hinv as [Hnodup Hall].
  destruct (dict_set_keys (dev_id device)
              {| lock_name := name_or_default (dev_name device);
                 lock_mac := mac_address |} available Hnodup)
    as (Hnodup' & Hin & Hold).
  split; [done|]. intros device_id info Hitem.
  destruct (decide (device_id = dev_id device)) as [->|Hne];
    [|by apply Hall, Hold].
  rewrite (dict_keys_functional _ _ _ _ Hnodup' Hitem Hin).
  split; [done|]. cbn [lock_mac lock_name].
  split; [by destruct mac_address|].
  split; [apply name_or_default_nonempty|].
  exists device. split; [done|]. split; [done|]. split; [done|].
  split; [by apply bluetooth_mac_Some|].
  destruct (data entry !! "sensor_type") as [sensor_type|] eqn:Htype.
  - exists entry_id, entry, sensor_type. repeat split; try done.
    apply Hsub. by left.
  - cbn in Hmodel. unfold LOCK_MODELS in Hmodel.
    repeat (apply elem_of_cons in Hmodel as [Hmodel|Hmodel];
            [discriminate|]).
    by apply elem_of_nil in Hmodel.
Qed.

Lemma devices_loop_offers entries existing_entries devices :
  ∀ remaining available,
    remaining ⊆ devices →
    offers_only CONNECTION_BLUETOOTH entries existing_entries devices
      available →
    offers_only CONNECTION_BLUETOOTH entries existing_entries devices
      (devices_loop CONNECTION_BLUETOOTH entries existing_entries remaining
         available).
Proof.
  intros remaining.
  induction remaining as [|device rest IH]; intros available Hsub Hinv;
    cbn [devices_loop]; [done|].
  apply IH; [set_solver|].
  apply config_entries_loop_offers; [set_solver|done..].
Qed.

Lemma find_switchbot_locks_offers entries existing_entries devices :
  offers_only CONNECTION_BLUETOOTH entries existing_entries devices
    (_async_find_switchbot_locks CONNECTION_BLUETOOTH entries
       existing_entries devices).
Proof.
  apply devices_loop_offers; [done|]. split; [constructor|].
  intros device_id info Hin. by apply elem_of_nil in Hin.
Qed.

(** X22: what the flow offers. Every lock in [_available_locks] is a device
    of the registry that has a config entry of the SwitchBot integration
    with a lock model as sensor type, its address is the non-empty address
    of a Bluetooth connection of that device, its name is the device's name
    or ["SwitchBot Lock"], and no existing entry of this integration is for
    that device; no device id is offered twice. *)
Theorem offered_locks_are_unconfigured_switchbot_locks
    entries existing_entries devices :
  NoDup (_async_find_switchbot_locks CONNECTION_BLUETOOTH entries
           existing_entries devices).*1
  ∧ ∀ device_id info,
      dict_get device_id
        (_async_find_switchbot_locks CONNECTION_BLUETOOTH entries
           existing_entries devices) = Some info →
      offerable CONNECTION_BLUETOOTH entries existing_entries devices
        device_id info.
Proof.
  destruct (find_switchbot_locks_offers entries existing_entries devices)
    as [Hnodup Hall].
  split; [done|]. intros device_id info Hget%dict_get_Some. by apply Hall.
Qed.

(** X23: the user step. It aborts with [no_locks_found] exactly when
    nothing can be offered. It creates an entry only for an offered lock
    that was chosen and whose id is not configured yet, titled with the
    lock's name and holding its id, name and address. A choice that is not
    offered brings the form back with the error [device_not_found], and
    without a choice the form comes without errors, one option per lock. *)
Theorem user_step_outcomes unique_id_configured entries existing_entries
    devices user_input :
  let available :=
    _async_find_switchbot_locks CONNECTION_BLUETOOTH entries existing_entries
      devices in
  let result :=
    async_step_user CONNECTION_BLUETOOTH unique_id_configured entries
      existing_entries devices user_input in
  (result = Abort "no_locks_found" ↔ available = [])
  ∧ (∀ title entry_data,
       result = CreateEntry title entry_data →
       ∃ device_id info,
         user_input = Some device_id
         ∧ offerable CONNECTION_BLUETOOTH entries existing_entries devices
             device_id info
         ∧ unique_id_configured device_id = false
         ∧ title = lock_name info +:+ " Logs"
         ∧ entry_data = {[ "device_id" := device_id;
                           "device_name" := lock_name info;
                           "mac_address" := lock_mac info ]})
  ∧ (∀ device_id,
       user_input = Some device_id → available ≠ [] →
       dict_get device_id available = None →
       result = ShowForm "user" (device_options available)
                  {[ "base" := "device_not_found" ]})
  ∧ (user_input = None → available ≠ [] →
     result = ShowForm "user" (device_options available) ∅
     ∧ length (device_options available) = length available).
Proof.
  cbn zeta. unfold async_step_user.
  pose proof (find_switchbot_locks_offers entries existing_entries devices)
    as [_ Hall].
  destruct (_async_find_switchbot_locks CONNECTION_BLUETOOTH entries
              existing_entries devices) as [|item rest] eqn:Havail.
  - split; [done|]. split; [discriminate|]. split; [done|]. by intros _ [].
  - split; [|split; [|split]].
    + split; [|discriminate].
      destruct user_input as [device_id|]; [|discriminate].
      destruct (dict_get device_id (item :: rest)); [|discriminate].
      by destruct (unique_id_configured device_id).
    + intros title entry_data.
      destruct user_input as [device_id|]; [|discriminate].
      destruct (dict_get device_id (item :: rest)) as [info|] eqn:Hget;
        [|discriminate].
      destruct (unique_id_configured device_id) eqn:Huid; [discriminate|].
      intros [= <- <-]. exists device_id, info.
      split; [done|]. split; [|done]. by apply Hall, dict_get_Some.
    + by intros device_id -> _ ->.
    + intros -> _. split; [done|]. unfold device_options.
      by rewrite length_fmap.
Qed.

End ConfigFlowFacts.

Lemma offered_locks_are_unconfigured_switchbot_locks_witness :
  offerable "bluetooth" {[ "sb-1" := sample_switchbot_entry ]} []
    [sample_device] "device-1"
    {| lock_name := "Front door"; lock_mac := "AA:BB" |}.
Proof.
  apply (proj2 (offered_locks_are_unconfigured_switchbot_locks "bluetooth"
                  {[ "sb-1" := sample_switchbot_entry ]} [] [sample_device])).
  reflexivity.
Defined.

Lemma user_step_outcomes_witness :
  ∃ device_id info,
    Some "device-1" = Some device_id
    ∧ offerable "bluetooth" {[ "sb-1" := sample_switchbot_entry ]} []
        [sample_device] device_id info
    ∧ (λ _ : string, false) device_id = false
    ∧ "Front door Logs" = lock_name info +:+ " Logs"
    ∧ ({[ "device_id" := "device-1"; "device_name" := "Front door";
          "mac_address" := "AA:BB" ]} : gmap string string)
      = {[ "device_id" := device_id; "device_name" := lock_name info;
           "mac_address" := lock_mac info ]}.
Proof.
  apply (proj1 (proj2 (user_step_outcomes "bluetooth" (λ _, false)
                         {[ "sb-1" := sample_switchbot_entry ]} []
                         [sample_device] (Some "device-1")))
           "Front door Logs").
  reflexivity.
Defined.

(** ** Ordered batches *)

Lemma newest_first_accepts_newest log_manager self e :
  newest_first (latest_logs log_manager) →
  _get_newest_valid_log log_manager self = Some e →
  ∀ e', e' ∈ latest_logs log_manager →
        acceptable (_last_processed_timestamp self) e' = true →
        get_timestamp e' ≤ get_timestamp e.
Proof.
  intros Hsorted (before & after & Heq & _ & Hnone)%newest_valid_loop_Some
    e' Hin Hacc.
  fold (latest_logs log_manager) in Heq. rewrite Heq in Hin, Hsorted.
  apply elem_of_app in Hin as [Hin|Hin].
  - rewrite Forall_forall in Hnone. rewrite (Hnone _ Hin) in Hacc.
    discriminate.
  - apply list_elem_of_lookup in Hin as [j Hj].
    apply (Hsorted (length before) (length before + j)%nat e e'); [lia|..].
    + by rewrite lookup_app_r, Nat.sub_diag by lia.
    + rewrite lookup_app_r by lia.
      by replace (length before + j - length before)%nat with j by lia.
Qed.

Lemma newest_first_logs_ordered : newest_first newest_first_logs.
Proof.
  intros i j ei ej Hij Hi Hj. unfold newest_first_logs in *.
  destruct i as [|[|i]]; destruct j as [|[|j]]; cbn in Hi, Hj;
    try discriminate; try lia;
    injection Hi as <-; injection Hj as <-; cbn; lia.
Qed.

(** X24: on a batch ordered newest first the selection does what its name
    says: the entry it returns has the greatest timestamp among the entries
    that are newer than the high-water mark and have a valid payload. *)
Theorem newest_valid_log_is_newest_on_ordered_batch log_manager self e :
  newest_first (latest_logs log_manager) →
  _get_newest_valid_log log_manager self = Some e →
  e ∈ latest_logs log_manager
  ∧ acceptable (_last_processed_timestamp self) e = true
  ∧ ∀ e', e' ∈ latest_logs log_manager →
          acceptable (_last_processed_timestamp self) e' = true →
          get_timestamp e' ≤ get_timestamp e.
Proof.
  intros Hsorted Hnew.
  split; [|split; [|by apply newest_first_accepts_newest]].
  - apply newest_valid_loop_Some in Hnew as (before & after & Heq & _).
    fold (latest_logs log_manager) in Heq. rewrite Heq. set_solver.
  - by apply newest_valid_loop_Some in Hnew as (? & ? & _ & ? & _).
Qed.

Lemma newest_valid_log_is_newest_on_ordered_batch_witness :
  ∃ e,
    e ∈ newest_first_logs
    ∧ acceptable 0 e = true
    ∧ ∀ e', e' ∈ newest_first_logs → acceptable 0 e' = true →
            get_timestamp e' ≤ get_timestamp e.
Proof.
  eexists.
  apply (newest_valid_log_is_newest_on_ordered_batch
           {| _mac := "AA:BB"; _latest_logs := newest_first_logs;
              _listeners := [] |} new_last_user_sensor).
  - apply newest_first_logs_ordered.
  - reflexivity.
Defined.

(** X25: handling the same notification twice. On a batch ordered newest
    first a second update over the same cache changes nothing; on a batch
    that is not, it can accept a further entry. *)
Theorem update_twice_on_ordered_batch :
  (∀ log_manager self,
     newest_first (latest_logs log_manager) →
     fst (_handle_log_update log_manager
            (fst (_handle_log_update log_manager self)))
     = fst (_handle_log_update log_manager self))
  ∧ (∃ log_manager self,
       fst (_handle_log_update log_manager
              (fst (_handle_log_update log_manager self)))
       ≠ fst (_handle_log_update log_manager self)).
Proof.
  split.
  - intros log_manager self Hsorted.
    destruct (handle_log_update_cases log_manager self)
      as [[_ Hsame]|(e & Hnew & Hacc & Hstep)].
    + by rewrite !Hsame.
    + rewrite Hstep.
      destruct (handle_log_update_cases log_manager
                  {| _last_processed_timestamp := get_timestamp e;
                     _current_log := Some e |})
        as [[_ Hsame]|(e' & Hnew' & Hacc' & _)]; [done|].
      exfalso.
      apply newest_valid_loop_Some in Hnew' as (before & after & Heq & _).
      fold (latest_logs log_manager) in Heq.
      cbn [_last_processed_timestamp] in Hacc'.
      apply acceptable_facts in Hacc as [Hlt _].
      assert (acceptable (_last_processed_timestamp self) e' = true) as Hold.
      { unfold acceptable in *. apply andb_prop in Hacc' as [Ht ->].
        rewrite andb_true_r. lia. }
      assert (get_timestamp e' ≤ get_timestamp e) as Hle.
      { apply (newest_first_accepts_newest log_manager self e); [done..| |done].
        rewrite Heq. set_solver. }
      unfold acceptable in Hacc'. apply andb_prop in Hacc' as [Ht _]. lia.
  - exists {| _mac := "AA:BB"; _latest_logs := out_of_order_logs;
              _listeners := [] |}, new_last_user_sensor.
    vm_compute. discriminate.
Qed.

Lemma update_twice_on_ordered_batch_witness :
  let log_manager := {| _mac := "AA:BB"; _latest_logs := newest_first_logs;
                        _listeners := [] |} in
  fst (_handle_log_update log_manager
         (fst (_handle_log_update log_manager new_last_user_sensor)))
  = fst (_handle_log_update log_manager new_last_user_sensor).
Proof.
  intros log_manager.
  apply (proj1 update_twice_on_ordered_batch log_manager).
  apply newest_first_logs_ordered.
Defined.

(** ** From a fetch to the sensors *)

Section FetchToSensors.
Context `{SwitchbotConst}.
Context (async_write_ha_state :
           SwitchBotLockLogManager → Listener
           → option SwitchBotLockLastUserSensor → result unit).





End FetchToSensors.

